(** * ThreadActorProxy: the thread-state coordinator of the Firefox debug adapter

    A shallow embedding of [src/firefox/actorProxy/thread.ts].  The class is a
    mutable object driven from a single-threaded event loop; its methods are
    embedded as computations in a small monad that threads the object, records
    every call made to a collaborator (connection, logger, promise
    continuations, event listeners) in a trace, and propagates JavaScript
    exceptions. *)

From Stdlib Require Import List String ZArith Bool Lia.
Import ListNotations.

Local Open Scope string_scope.
Local Open Scope list_scope.

(** ** Protocol data *)

(** Modelled from the spec: the declarations of [FirefoxDebugProtocol] are not
    among the sources.  A grip and a frame are payloads the coordinator only
    passes on; they are represented by their JSON text. *)
Definition Grip := string.
Definition Frame := string.

(** Modelled from the spec: [FirefoxDebugProtocol.Source], of which the
    coordinator reads [actor] and [url]. *)
Record Source := { actor : string; url : string }.

(** [why.frameFinished] of a pause reason; the coordinator reads [return]. *)
Record CompletionValue := { return_ : Grip }.

Record ThreadPausedReason := {
  why_type : string;
  frameFinished : option CompletionValue
}.

(** An inbound message.  The handler dispatches on the shape of the object, so
    every property it looks at is an optional field ([None] is [undefined]). *)
Record Response := {
  rsp_from : string;
  rsp_type : option string;
  rsp_why : option ThreadPausedReason;
  rsp_source : option Source;
  rsp_sources : option (list Source);
  rsp_frames : option (list Frame);
  rsp_error : option string
}.

(** An outbound message, as the object literal handed to
    [connection.sendRequest]. *)
Record Request := {
  to : string;
  type : string;
  resumeLimit : option string;
  expression : option string;
  frame : option string
}.

Definition request (to type : string) : Request :=
  {| to := to; type := type; resumeLimit := None;
     expression := None; frame := None |}.

(** ** Promises and continuations *)

(** A promise is identified by the type of its result and its allocation
    number; its [resolve] and [reject] functions are identified with it. *)
Inductive PromiseId :=
| FramesPromise (n : nat)
| GripPromise (n : nat)
| ResultPromise (n : nat).

Inductive Value :=
| VFrames (l : list Frame)
| VGrip (g : Grip)
| VUndefined.

(** A [TypeError] raised by reading a property of [null] or [undefined]. *)
Inductive TypeError :=
| NullDeref (path : string).

Inductive Reason :=
| Msg (s : string)
| Thrown (e : TypeError).

(** [PendingRequest<T>] of [pendingRequests.ts]: just the two continuations. *)
Record PendingRequest := { resolve : PromiseId; reject : PromiseId }.

(** [QueuedRequest<T>].  [send] is a closure whose only action is one
    [connection.sendRequest]; it is represented by the message it sends. *)
Record QueuedRequest := {
  send : Request;
  q_resolve : PromiseId;
  q_reject : PromiseId
}.

(** ** The object *)

Inductive DesiredState := Paused | Running | StepOver | StepInto | StepOut.

Definition state_name (d : DesiredState) : string :=
  match d with
  | Paused => "paused"
  | Running => "running"
  | StepOver => "stepOver"
  | StepInto => "stepInto"
  | StepOut => "stepOut"
  end.

Definition is_paused_state (d : DesiredState) : bool :=
  match d with Paused => true | _ => false end.

Record ThreadActorProxy := {
  _name : string;
  desiredState : DesiredState;
  paused : bool;
  operationsRunningOnPausedThread : Z;
  pendingFrameRequests : list PendingRequest;
  queuedEvaluateRequests : list QueuedRequest;
  pendingEvaluateRequest : option PendingRequest
}.

Definition set_desiredState (d : DesiredState) (t : ThreadActorProxy) :=
  {| _name := _name t; desiredState := d; paused := paused t;
     operationsRunningOnPausedThread := operationsRunningOnPausedThread t;
     pendingFrameRequests := pendingFrameRequests t;
     queuedEvaluateRequests := queuedEvaluateRequests t;
     pendingEvaluateRequest := pendingEvaluateRequest t |}.

Definition set_paused (b : bool) (t : ThreadActorProxy) :=
  {| _name := _name t; desiredState := desiredState t; paused := b;
     operationsRunningOnPausedThread := operationsRunningOnPausedThread t;
     pendingFrameRequests := pendingFrameRequests t;
     queuedEvaluateRequests := queuedEvaluateRequests t;
     pendingEvaluateRequest := pendingEvaluateRequest t |}.

Definition set_operationsRunningOnPausedThread (n : Z) (t : ThreadActorProxy) :=
  {| _name := _name t; desiredState := desiredState t; paused := paused t;
     operationsRunningOnPausedThread := n;
     pendingFrameRequests := pendingFrameRequests t;
     queuedEvaluateRequests := queuedEvaluateRequests t;
     pendingEvaluateRequest := pendingEvaluateRequest t |}.

Definition set_pendingFrameRequests (l : list PendingRequest) (t : ThreadActorProxy) :=
  {| _name := _name t; desiredState := desiredState t; paused := paused t;
     operationsRunningOnPausedThread := operationsRunningOnPausedThread t;
     pendingFrameRequests := l;
     queuedEvaluateRequests := queuedEvaluateRequests t;
     pendingEvaluateRequest := pendingEvaluateRequest t |}.

Definition set_queuedEvaluateRequests (l : list QueuedRequest) (t : ThreadActorProxy) :=
  {| _name := _name t; desiredState := desiredState t; paused := paused t;
     operationsRunningOnPausedThread := operationsRunningOnPausedThread t;
     pendingFrameRequests := pendingFrameRequests t;
     queuedEvaluateRequests := l;
     pendingEvaluateRequest := pendingEvaluateRequest t |}.

Definition set_pendingEvaluateRequest (p : option PendingRequest) (t : ThreadActorProxy) :=
  {| _name := _name t; desiredState := desiredState t; paused := paused t;
     operationsRunningOnPausedThread := operationsRunningOnPausedThread t;
     pendingFrameRequests := pendingFrameRequests t;
     queuedEvaluateRequests := queuedEvaluateRequests t;
     pendingEvaluateRequest := p |}.

(** ** The operation counter as a Number *)

(** [operationsRunningOnPausedThread] is a JavaScript Number that starts at 0
    and is only changed by [++] and [--]: an integer-valued double.  The sum
    or difference is rounded to the nearest double, ties to the even
    mantissa; integers of magnitude below 2^53 are doubles, so the rounding
    only shows from 2^53 on, where [++] and [--] no longer change the
    value. *)
Definition two53 : Z := 9007199254740992.

Definition roundNumber (z : Z) : Z :=
  let a := Z.abs z in
  if (a <? two53)%Z then z
  else
    let ulp := (2 ^ (Z.log2 a - 52))%Z in
    let q := (a / ulp)%Z in
    let r := (a mod ulp)%Z in
    let q' := if (2 * r <? ulp)%Z then q
              else if (ulp <? 2 * r)%Z then (q + 1)%Z
              else if Z.even q then q else (q + 1)%Z in
    (Z.sgn z * (q' * ulp))%Z.

(** [n++] and [n--] *)
Definition increment (n : Z) : Z := roundNumber (n + 1).
Definition decrement (n : Z) : Z := roundNumber (n - 1).

(** ** Observable effects *)

Inductive Level := debug | warn | error.

(** The pieces of a log line: literal text, an interpolated number, or
    [JSON.stringify] of a message. *)
Inductive LogPart :=
| Str (s : string)
| Num (n : nat)
| Json (r : Response).

Inductive Event :=
| paused_event (why : string)
| exited_event
| wrongState_event
| newSource_event (sourceActor : string).

Inductive Effect :=
| ConnRegister (name : string)        (* connection.register(this) *)
| SendRequest (r : Request)           (* connection.sendRequest(r) *)
| GetOrCreate (actorId : string)      (* connection.getOrCreate(actorId, ..) *)
| Resolve (p : PromiseId) (v : Value) (* a call of p's resolve function *)
| Reject (p : PromiseId) (r : Reason) (* a call of p's reject function *)
| Emit (e : Event)                    (* this.emit(..) *)
| Log (l : Level) (msg : list LogPart)
| EnterDoNext.                        (* ghost: control entered doNext() *)

(** ** The monad *)

(** The heap as far as the class is concerned: the object itself and the
    number of promises allocated so far. *)
Record World := { this : ThreadActorProxy; promises : nat }.

Inductive Completion (A : Type) :=
| Normal (a : A)
| Throw (e : TypeError).
Arguments Normal {A} a.
Arguments Throw {A} e.

Record Result (A : Type) := {
  final : World;
  trace : list Effect;
  completion : Completion A
}.
Arguments final {A} r.
Arguments trace {A} r.
Arguments completion {A} r.

Definition M (A : Type) := World -> Result A.

Definition ret {A} (a : A) : M A :=
  fun w => {| final := w; trace := []; completion := Normal a |}.

Definition bind {A B} (m : M A) (k : A -> M B) : M B :=
  fun w =>
    match m w with
    | {| final := w1; trace := t1; completion := Normal a |} =>
        match k a w1 with
        | {| final := w2; trace := t2; completion := c |} =>
            {| final := w2; trace := t1 ++ t2; completion := c |}
        end
    | {| final := w1; trace := t1; completion := Throw e |} =>
        {| final := w1; trace := t1; completion := Throw e |}
    end.

Declare Scope monad_scope.
Delimit Scope monad_scope with monad.
Notation "x <- m ;; k" := (bind m (fun x => k))
  (at level 61, m at next level, right associativity) : monad_scope.
Notation "m ;; k" := (bind m (fun _ => k))
  (at level 61, right associativity) : monad_scope.
Local Open Scope monad_scope.

Definition gets {A} (f : ThreadActorProxy -> A) : M A :=
  fun w => {| final := w; trace := []; completion := Normal (f (this w)) |}.

Definition modify (f : ThreadActorProxy -> ThreadActorProxy) : M unit :=
  fun w => {| final := {| this := f (this w); promises := promises w |};
              trace := []; completion := Normal tt |}.

Definition tell (e : Effect) : M unit :=
  fun w => {| final := w; trace := [e]; completion := Normal tt |}.

Definition throw {A} (e : TypeError) : M A :=
  fun w => {| final := w; trace := []; completion := Throw e |}.

(** [try { m } catch (e) { h e }]; the mutations of [m] are kept. *)
Definition try_catch {A} (m : M A) (h : TypeError -> M A) : M A :=
  fun w =>
    match m w with
    | {| final := w1; trace := t1; completion := Normal a |} =>
        {| final := w1; trace := t1; completion := Normal a |}
    | {| final := w1; trace := t1; completion := Throw e |} =>
        match h e w1 with
        | {| final := w2; trace := t2; completion := c |} =>
            {| final := w2; trace := t1 ++ t2; completion := c |}
        end
    end.

(** Reading a property through a possibly null reference. *)
Definition deref {A} (path : string) (o : option A) : M A :=
  match o with
  | Some a => ret a
  | None => throw (NullDeref path)
  end.

Fixpoint forEach {A} (l : list A) (f : A -> M unit) : M unit :=
  match l with
  | [] => ret tt
  | x :: l' => f x ;; forEach l' f
  end.

(** [new Promise(executor)]: the executor runs at once; if it throws, the
    promise is rejected with what was thrown. *)
Definition newPromise (kind : nat -> PromiseId) (executor : PromiseId -> M unit)
  : M PromiseId :=
  fun w =>
    let p := kind (promises w) in
    (try_catch (executor p) (fun e => tell (Reject p (Thrown e))) ;; ret p)
      {| this := this w; promises := S (promises w) |}.

(** [Promise.reject(reason)] *)
Definition Promise_reject (kind : nat -> PromiseId) (reason : string) : M PromiseId :=
  newPromise kind (fun p => tell (Reject p (Msg reason))).

Definition sendRequest (r : Request) : M unit := tell (SendRequest r).
Definition emit (e : Event) : M unit := tell (Emit e).
Definition Log_debug (msg : list LogPart) : M unit := tell (Log debug msg).
Definition Log_warn (msg : list LogPart) : M unit := tell (Log warn msg).
Definition Log_error (msg : list LogPart) : M unit := tell (Log error msg).

(** ** PendingRequests *)

(** Modelled from the spec: the class [PendingRequests] of
    [pendingRequests.ts] is not among the sources.  The spec describes it as a
    FIFO ledger of continuations: a request is entered at the back, one
    response resolves the oldest entry, and on exit every outstanding entry is
    rejected (after which none is outstanding). *)
Module PendingRequests.

Definition enqueue (req : PendingRequest) : M unit :=
  modify (fun t => set_pendingFrameRequests (pendingFrameRequests t ++ [req]) t).

Definition resolveOne (v : Value) : M unit :=
  l <- gets pendingFrameRequests ;;
  match l with
  | req :: rest =>
      modify (set_pendingFrameRequests rest) ;;
      tell (Resolve (resolve req) v)
  | [] => ret tt
  end.

Definition rejectAll (err : string) : M unit :=
  l <- gets pendingFrameRequests ;;
  forEach l (fun req => tell (Reject (reject req) (Msg err))) ;;
  modify (set_pendingFrameRequests []).

End PendingRequests.

(** ** The class ThreadActorProxy *)

Definition name : M string := gets _name.

(** The constructor: the fields' initialisers, then the body. *)
Definition initial (_name : string) : ThreadActorProxy :=
  {| _name := _name;
     desiredState := Paused;
     paused := true;
     operationsRunningOnPausedThread := 0;
     pendingFrameRequests := [];
     queuedEvaluateRequests := [];
     pendingEvaluateRequest := None |}.

Definition constructor (_name : string) : Result unit :=
  (tell (ConnRegister _name) ;;
   n <- name ;; sendRequest (request n "attach") ;;
   n <- name ;; sendRequest (request n "sources") ;;
   n <- name ;; Log_debug [Str "Created and attached thread "; Str n])
    {| this := initial _name; promises := 0 |}.

Definition sendPauseRequest : M unit :=
  n <- name ;; Log_debug [Str "Sending pause request to thread "; Str n] ;;
  n <- name ;; sendRequest (request n "interrupt") ;;
  modify (set_paused true).

Definition resume_request (to : string) (limit : option string) : Request :=
  {| to := to; type := "resume"; resumeLimit := limit;
     expression := None; frame := None |}.

Definition doNext : M unit :=
  tell EnterDoNext ;;
  ops <- gets operationsRunningOnPausedThread ;;
  if (ops >? 0)%Z then
    p <- gets paused ;;
    if negb p then
      Log_error [Str "The thread isn't paused but an operation that requires the thread to be paused is still running!"]
    else ret tt
  else
    pending <- gets pendingEvaluateRequest ;;
    match pending with
    | Some _ =>
        p <- gets paused ;;
        if p then
          n <- name ;; sendRequest (request n "resume") ;;
          modify (set_paused false)
        else ret tt
    | None =>
        queue <- gets queuedEvaluateRequests ;;
        match queue with
        | queuedEvaluateRequest :: rest =>       (* length > 0 *)
            p <- gets paused ;;
            if p then
              modify (set_queuedEvaluateRequests rest) ;;        (* shift() *)
              modify (set_pendingEvaluateRequest
                        (Some {| resolve := q_resolve queuedEvaluateRequest;
                                 reject := q_reject queuedEvaluateRequest |})) ;;
              sendRequest (send queuedEvaluateRequest) ;;
              modify (set_paused false)
            else
              Log_warn [Str "The thread is running but an evaluate request is still queued - rejecting"] ;;
              forEach queue (fun queuedEvaluateRequest =>
                tell (Reject (q_reject queuedEvaluateRequest) (Msg "Thread is running")))
        | [] =>
            d <- gets desiredState ;;
            match d with
            | Paused =>
                p <- gets paused ;;
                if negb p then sendPauseRequest else ret tt
            | Running =>
                p <- gets paused ;;
                if p then
                  n <- name ;; sendRequest (request n "resume") ;;
                  modify (set_paused false)
                else ret tt
            | StepOver =>
                p <- gets paused ;;
                if p then
                  n <- name ;; sendRequest (resume_request n (Some "next")) ;;
                  modify (set_paused false)
                else ret tt
            | StepInto =>
                p <- gets paused ;;
                if p then
                  n <- name ;; sendRequest (resume_request n (Some "step")) ;;
                  modify (set_paused false)
                else ret tt
            | StepOut =>
                p <- gets paused ;;
                if p then
                  n <- name ;; sendRequest (resume_request n (Some "finish")) ;;
                  modify (set_paused false)
                else ret tt
            end
        end
    end.

Definition operationFinishedOnPausedThread : M unit :=
  Log_debug [Str "Operation finished on paused thread"] ;;
  modify (fun t => set_operationsRunningOnPausedThread
                     (decrement (operationsRunningOnPausedThread t)) t) ;;
  doNext.

(** [operation] is handed the completion callback and returns its result. *)
Definition runOnPausedThread (operation : M unit -> M Value) : M PromiseId :=
  Log_debug [Str "Starting operation on paused thread"] ;;
  modify (fun t => set_operationsRunningOnPausedThread
                     (increment (operationsRunningOnPausedThread t)) t) ;;
  newPromise ResultPromise (fun promise =>
    p <- gets paused ;;
    (if negb p then sendPauseRequest else ret tt) ;;
    result <- operation operationFinishedOnPausedThread ;;
    tell (Resolve promise result)).

Definition interrupt : M unit :=
  n <- name ;; Log_debug [Str "Want thread "; Str n; Str " to be paused"] ;;
  modify (set_desiredState Paused) ;;
  p <- gets paused ;;
  if negb p then sendPauseRequest else ret tt.

Definition fetchStackFrames : M PromiseId :=
  d <- gets desiredState ;;
  if negb (is_paused_state d) then
    Log_warn [Str "fetchStackFrames() called but desiredState is "; Str (state_name d)] ;;
    Promise_reject FramesPromise "not paused"
  else
    n <- name ;; Log_debug [Str "Fetching stackframes from thread "; Str n] ;;
    newPromise FramesPromise (fun promise =>
      p <- gets paused ;;
      if p then
        PendingRequests.enqueue {| resolve := promise; reject := promise |} ;;
        n <- name ;; sendRequest (request n "frames")
      else
        Log_warn [Str "fetchStackFrames() called but thread is running"] ;;
        tell (Reject promise (Msg "not paused"))).

(** [resume], [stepOver], [stepInto] and [stepOut] differ only in their name
    and in the state they ask for. *)
Definition resume_like (method : string) (target : DesiredState) : M unit :=
  d <- gets desiredState ;;
  if negb (is_paused_state d) then
    Log_warn [Str method; Str "() called but desiredState is already "; Str (state_name d)]
  else
    n <- name ;; Log_debug [Str "Resuming thread "; Str n] ;;
    modify (set_desiredState target) ;;
    doNext.

Definition resume : M unit := resume_like "resume" Running.
Definition stepOver : M unit := resume_like "stepOver" StepOver.
Definition stepInto : M unit := resume_like "stepInto" StepInto.
Definition stepOut : M unit := resume_like "stepOut" StepOut.

Definition clientEvaluate_request (to expr frameActorName : string) : Request :=
  {| to := to; type := "clientEvaluate"; resumeLimit := None;
     expression := Some expr; frame := Some frameActorName |}.

Definition evaluate (expr frameActorName : string) : M PromiseId :=
  d <- gets desiredState ;;
  if negb (is_paused_state d) then
    Log_warn [Str "evaluate() called but desiredState is "; Str (state_name d)] ;;
    Promise_reject GripPromise "not paused"
  else
    newPromise GripPromise (fun promise =>
      n <- name ;;
      let send := clientEvaluate_request n expr frameActorName in
      modify (fun t => set_queuedEvaluateRequests
                (queuedEvaluateRequests t ++
                   [{| send := send; q_resolve := promise; q_reject := promise |}]) t) ;;
      doNext).

Definition type_is (response : Response) (t : string) : bool :=
  match rsp_type response with
  | Some t' => String.eqb t' t
  | None => false
  end.

Definition error_is (response : Response) (e : string) : bool :=
  match rsp_error response with
  | Some e' => String.eqb e' e
  | None => false
  end.

(** The body of [case 'resumeLimit'] and of [case 'breakpoint']. *)
Definition paused_by (why_type : string) : M unit :=
  Log_debug [Str "Received paused event of type "; Str why_type] ;;
  modify (set_paused true) ;;
  modify (set_desiredState Paused) ;;
  doNext ;;
  emit (paused_event why_type).

Definition receiveResponse (response : Response) : M unit :=
  if type_is response "paused" then
    n <- name ;; Log_debug [Str "Thread "; Str n; Str " paused"] ;;
    why <- deref "pausedResponse.why" (rsp_why response) ;;
    let t := why_type why in
    if String.eqb t "attached" then
      Log_debug [Str "Received attached event"]
    else if String.eqb t "interrupted" then
      Log_debug [Str "Received paused event of type interrupted"] ;;
      modify (set_paused true) ;;
      d <- gets desiredState ;;
      if is_paused_state d then emit (paused_event t) else ret tt
    else if String.eqb t "resumeLimit" then
      paused_by t
    else if String.eqb t "breakpoint" then
      paused_by t
    else if String.eqb t "clientEvaluated" then
      Log_debug [Str "Received paused event of type clientEvaluated"] ;;
      modify (set_paused true) ;;
      pending <- gets pendingEvaluateRequest ;;
      pending <- deref "this.pendingEvaluateRequest" pending ;;
      completionValue <- deref "pausedResponse.why.frameFinished" (frameFinished why) ;;
      tell (Resolve (resolve pending) (VGrip (return_ completionValue))) ;;
      modify (set_pendingEvaluateRequest None) ;;
      doNext ;;
      p <- gets paused ;;
      if p then emit (paused_event t) else ret tt
    else if String.eqb t "debuggerStatement" || String.eqb t "watchpoint"
            || String.eqb t "pauseOnDOMEvents" then
      Log_error [Str "Paused event with reason "; Str t; Str " not handled yet"]
    else ret tt
  else if type_is response "resumed" then
    n <- name ;; Log_debug [Str "Received resumed event from "; Str n; Str " (ignoring)"]
  else if type_is response "newSource" then
    source <- deref "source" (rsp_source response) ;;
    n <- name ;; Log_debug [Str "New source "; Str (url source); Str " on thread "; Str n] ;;
    tell (GetOrCreate (actor source)) ;;
    emit (newSource_event (actor source))
  else
    match rsp_sources response with
    | Some sources =>
        n <- name ;;
        Log_debug [Str "Received "; Num (List.length sources); Str " sources from thread "; Str n]
    | None =>
    match rsp_frames response with
    | Some frames =>
        n <- name ;;
        Log_debug [Str "Received "; Num (List.length frames); Str " frames from thread "; Str n] ;;
        PendingRequests.resolveOne (VFrames frames)
    | None =>
    if type_is response "detached" then
      n <- name ;; Log_debug [Str "Thread "; Str n; Str " detached"]
    else if type_is response "exited" then
      n <- name ;; Log_debug [Str "Thread "; Str n; Str " exited"] ;;
      PendingRequests.rejectAll "Exited" ;;
      emit exited_event
    else if error_is response "wrongState" then
      n <- name ;;
      Log_warn [Str "Thread "; Str n; Str " was in the wrong state for the last request"] ;;
      emit wrongState_event
    else if type_is response "newGlobal" then
      n <- name ;; Log_debug [Str "Received newGlobal event from "; Str n; Str " (ignoring)"]
    else
      Log_warn [Str "Unknown message from ThreadActor: "; Json response]
    end
    end.

(** ** The environment of the coordinator *)

(** What the debug session and the connection can do with the object: call a
    public method, invoke a completion callback handed out by
    [runOnPausedThread], or deliver a message. *)
Inductive Call :=
| call_interrupt
| call_resume
| call_stepOver
| call_stepInto
| call_stepOut
| call_fetchStackFrames
| call_evaluate (expr frameActorName : string)
| call_finished
| deliver (response : Response).

(** An action is a call, or a [runOnPausedThread] whose operation performs the
    given actions before it returns. *)
#[local] Unset Elimination Schemes.
Inductive Action :=
| Do (c : Call)
| RunOnPausedThread (operation : list Action).
#[local] Set Elimination Schemes.

Definition perform (c : Call) : M unit :=
  match c with
  | call_interrupt => interrupt
  | call_resume => resume
  | call_stepOver => stepOver
  | call_stepInto => stepInto
  | call_stepOut => stepOut
  | call_fetchStackFrames => fetchStackFrames ;; ret tt
  | call_evaluate expr frameActorName => evaluate expr frameActorName ;; ret tt
  | call_finished => operationFinishedOnPausedThread
  | deliver response => receiveResponse response
  end.

Fixpoint exec (a : Action) : M unit :=
  match a with
  | Do c => perform c
  | RunOnPausedThread operation =>
      runOnPausedThread (fun _ =>
        (fix body (l : list Action) : M unit :=
           match l with
           | [] => ret tt
           | a' :: l' => exec a' ;; body l'
           end) operation ;;
        ret VUndefined) ;;
      ret tt
  end.

(** One turn of the event loop: the action runs to completion; what it throws
    is caught around it and the object stays as the action left it. *)
Definition turn (a : Action) (w : World) : World := final (exec a w).

Inductive reachable : World -> Prop :=
| reachable_constructed (_name : string) :
    reachable (final (constructor _name))
| reachable_turn (w : World) (a : Action) :
    reachable w -> reachable (turn a w).

(** Running a list of actions, one turn after the other; the traces of the
    turns are concatenated. *)
Fixpoint run (l : list Action) (w : World) : World * list Effect :=
  match l with
  | [] => (w, [])
  | a :: l' =>
      let r := exec a w in
      let (w', tr) := run l' (final r) in
      (w', trace r ++ tr)
  end.

(** ** Reading traces *)

Definition requests (tr : list Effect) : list Request :=
  flat_map (fun e => match e with SendRequest r => [r] | _ => [] end) tr.

Definition emitted (tr : list Effect) : list Event :=
  flat_map (fun e => match e with Emit ev => [ev] | _ => [] end) tr.

Definition rejections (tr : list Effect) : list (PromiseId * Reason) :=
  flat_map (fun e => match e with Reject p r => [(p, r)] | _ => [] end) tr.

Definition resolutions (tr : list Effect) : list (PromiseId * Value) :=
  flat_map (fun e => match e with Resolve p v => [(p, v)] | _ => [] end) tr.

Definition doNext_entries (tr : list Effect) : nat :=
  List.length (filter (fun e => match e with EnterDoNext => true | _ => false end) tr).

(** ** Example objects *)

Definition thread1 : World := final (constructor "thread1").

Definition queued (n : nat) (expr : string) : QueuedRequest :=
  {| send := clientEvaluate_request "thread1" expr "frame1";
     q_resolve := GripPromise n; q_reject := GripPromise n |}.

(** A running thread, nothing in flight, two evaluate requests in the queue. *)
Definition running_with_queue : World :=
  {| this := {| _name := "thread1";
                desiredState := Running;
                paused := false;
                operationsRunningOnPausedThread := 0;
                pendingFrameRequests := [];
                queuedEvaluateRequests := [queued 0 "1+1"; queued 1 "2+2"];
                pendingEvaluateRequest := None |};
     promises := 2 |}.

(** The actions of a list in sequence inside one turn; an exception ends the
    sequence, as it does in the body of an operation. *)
Fixpoint exec_all (l : list Action) : M unit :=
  match l with
  | [] => ret tt
  | a :: l' => exec a ;; exec_all l'
  end.

(** Induction over actions, with the hypothesis for every action of an
    operation. *)
Fixpoint Action_ind (P : Action -> Prop)
    (HDo : forall c, P (Do c))
    (HRun : forall operation, Forall P operation -> P (RunOnPausedThread operation))
    (a : Action) : P a :=
  match a with
  | Do c => HDo c
  | RunOnPausedThread operation =>
      HRun operation
        ((fix all (l : list Action) : Forall P l :=
            match l with
            | [] => Forall_nil P
            | a' :: l' => Forall_cons a' (Action_ind P HDo HRun a') (all l')
            end) operation)
  end.

(** The invariant of the operation counter: while operations run on the
    paused thread, the thread is taken to be paused. *)
Definition paused_while_operating (w : World) : Prop :=
  (operationsRunningOnPausedThread (this w) > 0)%Z -> paused (this w) = true.

(** ** Evaluate requests, one at a time *)

(** The 'paused' message that reports the end of an evaluation. *)
Definition clientEvaluated (from : string) (v : Grip) : Response :=
  {| rsp_from := from;
     rsp_type := Some "paused";
     rsp_why := Some {| why_type := "clientEvaluated";
                        frameFinished := Some {| return_ := v |} |};
     rsp_source := None; rsp_sources := None; rsp_frames := None;
     rsp_error := None |}.

(** A session that only evaluates: calls of [evaluate], and the messages that
    report the end of an evaluation. *)
Inductive EvaluateStep :=
| Evaluate (expr frameActorName : string)
| Evaluated (v : Grip).

Definition evaluate_action (name : string) (s : EvaluateStep) : Action :=
  match s with
  | Evaluate expr frameActorName => Do (call_evaluate expr frameActorName)
  | Evaluated v => Do (deliver (clientEvaluated name v))
  end.

(** The requests submitted by a session, in the order of the calls, each with
    the promise its call returns; [k] promises exist before the session. *)
Fixpoint submissions (name : string) (k : nat) (script : list EvaluateStep)
  : list (Request * PromiseId) :=
  match script with
  | [] => []
  | Evaluate expr frameActorName :: script' =>
      (clientEvaluate_request name expr frameActorName, GripPromise k)
        :: submissions name (S k) script'
  | Evaluated _ :: script' => submissions name k script'
  end.

Definition reported (script : list EvaluateStep) : list Grip :=
  flat_map (fun s => match s with Evaluated v => [v] | _ => [] end) script.

(** The end of an evaluation is only reported while a request is outstanding. *)
Fixpoint answers_requests (outstanding : nat) (script : list EvaluateStep) : bool :=
  match script with
  | [] => true
  | Evaluate _ _ :: script' => answers_requests (S outstanding) script'
  | Evaluated _ :: script' =>
      match outstanding with
      | O => false
      | S o => answers_requests o script'
      end
  end.

(** What a trace says about evaluations: the clientEvaluate requests sent and
    the continuations of evaluate promises invoked. *)
Inductive EvaluateEvent :=
| Sent (r : Request)
| Fulfilled (p : PromiseId) (v : Value)
| Rejected (p : PromiseId) (r : Reason).

Definition evaluate_events (tr : list Effect) : list EvaluateEvent :=
  flat_map (fun e =>
    match e with
    | SendRequest r => if type r =? "clientEvaluate" then [Sent r] else []
    | Resolve (GripPromise n) v => [Fulfilled (GripPromise n) v]
    | Reject (GripPromise n) r => [Rejected (GripPromise n) r]
    | _ => []
    end) tr.

(** Requests served strictly one after the other: the first request is sent;
    the next one is sent once the promise of the one before is fulfilled. *)
Fixpoint one_at_a_time (subs : list (Request * PromiseId)) (vals : list Grip)
  : list EvaluateEvent :=
  match subs with
  | [] => []
  | (r, p) :: subs' =>
      Sent r ::
      match vals with
      | [] => []
      | v :: vals' => Fulfilled p (VGrip v) :: one_at_a_time subs' vals'
      end
  end.

Definition queued_request (s : Request * PromiseId) : QueuedRequest :=
  {| send := fst s; q_resolve := snd s; q_reject := snd s |}.

(** The object while it serves the outstanding requests [outs] of a thread
    that is wanted paused: the first one is active and the thread runs it, the
    others are queued; with none outstanding the thread is paused. *)
Definition serving (n : string) (ops : Z) (pf : list PendingRequest) (k : nat)
    (outs : list (Request * PromiseId)) : World :=
  {| this := {| _name := n;
                desiredState := Paused;
                paused := match outs with [] => true | _ => false end;
                operationsRunningOnPausedThread := ops;
                pendingFrameRequests := pf;
                queuedEvaluateRequests := map queued_request (tl outs);
                pendingEvaluateRequest :=
                  match outs with
                  | [] => None
                  | s :: _ => Some {| resolve := snd s; reject := snd s |}
                  end |};
     promises := k |}.

Definition is_submission (n : string) (s : Request * PromiseId) : Prop :=
  exists expr frameActorName p,
    s = (clientEvaluate_request n expr frameActorName, GripPromise p).

Definition sent_requests (evs : list EvaluateEvent) : list Request :=
  flat_map (fun ev => match ev with Sent r => [r] | _ => [] end) evs.

(** ** Invocations of doNext *)

(** The trace [tr] contains a run of [doNext] started on the object [w']. *)
Definition invokes_doNext_on (w' : World) (tr : list Effect) : Prop :=
  exists pre post, tr = pre ++ trace (doNext w') ++ post.

(** The thread after [resume()]: wanted running, and running. *)
Definition running_thread : World := turn (Do call_resume) thread1.

(** ** Continuations *)

(** The continuations of the outstanding frame requests, those of the queued
    and active evaluate requests, and the continuations a trace invokes. *)
Definition frame_continuations (t : ThreadActorProxy) : list PromiseId :=
  flat_map (fun req => [resolve req; reject req]) (pendingFrameRequests t).

Definition evaluate_continuations (t : ThreadActorProxy) : list PromiseId :=
  flat_map (fun q => [q_resolve q; q_reject q]) (queuedEvaluateRequests t)
  ++ match pendingEvaluateRequest t with
     | Some req => [resolve req; reject req]
     | None => []
     end.

Definition invoked (tr : list Effect) : list PromiseId :=
  flat_map (fun e =>
    match e with
    | Resolve p _ => [p]
    | Reject p _ => [p]
    | _ => []
    end) tr.

(** The 'exited' message. *)
Definition exited (from : string) : Response :=
  {| rsp_from := from; rsp_type := Some "exited"; rsp_why := None;
     rsp_source := None; rsp_sources := None; rsp_frames := None;
     rsp_error := None |}.

(** The paused thread with two frame requests outstanding. *)
Definition two_frame_requests : World :=
  turn (Do call_fetchStackFrames) (turn (Do call_fetchStackFrames) thread1).

(** The paused thread with two frame requests outstanding, one evaluate
    request active and one queued. *)
Definition evaluating_thread : World :=
  fst (run [Do call_fetchStackFrames; Do call_fetchStackFrames;
            Do (call_evaluate "1+1" "frame1"); Do (call_evaluate "2+2" "frame1")]
         thread1).

(** A 'paused' message with the given reason. *)
Definition paused_message (from why_type : string)
    (frameFinished : option CompletionValue) : Response :=
  {| rsp_from := from; rsp_type := Some "paused";
     rsp_why := Some {| why_type := why_type; frameFinished := frameFinished |};
     rsp_source := None; rsp_sources := None; rsp_frames := None;
     rsp_error := None |}.

(** ** The queue of evaluate requests and the running thread *)

(** No evaluate request waits in the queue of a running thread that has none
    active: the thread is paused, or an evaluate request is active, or the
    queue is empty and the thread is not wanted paused. *)
Definition queue_is_served (w : World) : bool :=
  paused (this w)
  || match pendingEvaluateRequest (this w) with Some _ => true | None => false end
  || (match queuedEvaluateRequests (this w) with [] => true | _ => false end
      && negb (is_paused_state (desiredState (this w)))).

(** No continuation is rejected with 'Thread is running' in the trace. *)
Definition no_running_rejection (tr : list Effect) : bool :=
  forallb (fun e =>
    match e with
    | Reject _ (Msg s) => negb (s =? "Thread is running")
    | _ => true
    end) tr.

(** ** Operations on the paused thread *)

(** The paused thread while one operation started by [runOnPausedThread] has
    not called its completion callback yet. *)
Definition operating_thread : World := turn (RunOnPausedThread []) thread1.

Definition is_frames_request (r : Request) : bool := type r =? "frames".

(** The resumeLimit of the resume request that makes the thread gravitate to
    a desired state. *)
Definition limit_of (d : DesiredState) : option string :=
  match d with
  | StepOver => Some "next"
  | StepInto => Some "step"
  | StepOut => Some "finish"
  | _ => None
  end.

(** ** Messages *)

(** The messages the handler treats as information only: not a 'paused'
    message, and either of type 'resumed' or 'newSource', or carrying
    sources, or without frames and not of type 'exited'. *)
Definition is_informational (response : Response) : bool :=
  negb (type_is response "paused")
  && (type_is response "resumed"
      || type_is response "newSource"
      || match rsp_sources response with Some _ => true | None => false end
      || (match rsp_frames response with Some _ => false | None => true end
          && negb (type_is response "exited"))).

(** The 'wrongState' error reply. *)
Definition wrongState (from : string) : Response :=
  {| rsp_from := from; rsp_type := None; rsp_why := None;
     rsp_source := None; rsp_sources := None; rsp_frames := None;
     rsp_error := Some "wrongState" |}.

(** The calls that are refused unless the thread is wanted paused. *)
Definition needs_desired_paused (c : Call) : bool :=
  match c with
  | call_resume | call_stepOver | call_stepInto | call_stepOut
  | call_fetchStackFrames | call_evaluate _ _ => true
  | _ => false
  end.

(** ** Evaluate requests and operations on the paused thread *)

(** Consecutive calls of [evaluate], given by expression and frame. *)
Definition evaluate_calls (calls : list (string * string)) : list Action :=
  map (fun c => Do (call_evaluate (fst c) (snd c))) calls.

Definition evaluate_steps (calls : list (string * string)) : list EvaluateStep :=
  map (fun c => Evaluate (fst c) (snd c)) calls.

(** The promises of the active and of the queued evaluate requests, oldest
    first. *)
Definition evaluate_promises (t : ThreadActorProxy) : list PromiseId :=
  match pendingEvaluateRequest t with
  | Some req => [resolve req]
  | None => []
  end ++ map q_resolve (queuedEvaluateRequests t).

(** The object when the operation of [runOnPausedThread] is invoked: the
    operation is counted, a promise is allocated, the thread is paused. *)
Definition enter_operation (w : World) : World :=
  {| this := set_paused true
               (set_operationsRunningOnPausedThread
                  (increment (operationsRunningOnPausedThread (this w))) (this w));
     promises := S (promises w) |}.

(** The promises of the evaluate requests held by the object are pairwise
    distinct promises of grips that have been allocated. *)
Definition promises_distinct (w : World) : Prop :=
  NoDup (evaluate_promises (this w))
  /\ forall p, In p (evaluate_promises (this w)) ->
               exists n, p = GripPromise n /\ n < promises w.

(** ** doNext after a change of desiredState *)

Definition is_message (c : Call) : bool :=
  match c with
  | deliver _ => true
  | _ => false
  end.

(** The object at the moment a call has assigned the new [desiredState] [d']
    (a 'paused' message has set [paused] just before): nothing else differs
    from the object [w] the call started on. *)
Definition object_after_change (c : Call) (d' : DesiredState) (w : World) : World :=
  {| this := set_desiredState d'
               (if is_message c then set_paused true (this w) else this w);
     promises := promises w |}.

(** A piece of trace that only logs and emits: [doNext] is not entered,
    nothing is sent and no continuation is invoked. *)
Definition silent (tr : list Effect) : Prop :=
  doNext_entries tr = 0 /\ requests tr = [] /\ invoked tr = [].

(** The run [r] consists of one run of [doNext] on the object [w'], between
    silent pieces of trace, and ends in the state in which that run ends. *)
Definition runs_doNext_on (w' : World) (r : Result unit) : Prop :=
  final r = final (doNext w')
  /\ exists pre post,
       trace r = pre ++ trace (doNext w') ++ post /\ silent pre /\ silent post.

(** ** Evaluate requests in any session *)

(** The evaluate request a call submits: [evaluate] called while
    [desiredState] is 'paused' queues the request it will send and returns the
    promise allocated next; any other call submits nothing. *)
Definition submitted_by (c : Call) (w : World) : list (Request * PromiseId) :=
  match c with
  | call_evaluate expr frameActorName =>
      if is_paused_state (desiredState (this w)) then
        [(clientEvaluate_request (_name (this w)) expr frameActorName,
          GripPromise (promises w))]
      else []
  | _ => []
  end.

(** The requests submitted in the course of an action, in the order of the
    calls; the actions of an operation run from the object as
    [runOnPausedThread] hands it over, up to the first that throws. *)
Fixpoint submitted (a : Action) (w : World) : list (Request * PromiseId) :=
  match a with
  | Do c => submitted_by c w
  | RunOnPausedThread operation =>
      (fix all (l : list Action) (w : World) : list (Request * PromiseId) :=
         match l with
         | [] => []
         | a' :: l' =>
             submitted a' w
             ++ match completion (exec a' w) with
                | Normal _ => all l' (final (exec a' w))
                | Throw _ => []
                end
         end) operation (enter_operation w)
  end.

Fixpoint submitted_all (l : list Action) (w : World) : list (Request * PromiseId) :=
  match l with
  | [] => []
  | a :: l' =>
      submitted a w
      ++ match completion (exec a w) with
         | Normal _ => submitted_all l' (final (exec a w))
         | Throw _ => []
         end
  end.

(** The requests submitted over a list of turns. *)
Fixpoint submitted_in_run (l : list Action) (w : World) : list (Request * PromiseId) :=
  match l with
  | [] => []
  | a :: l' => submitted a w ++ submitted_in_run l' (final (exec a w))
  end.

(** An [evaluate] call refused at once, because the thread is not wanted
    paused, rejects its new promise with 'not paused'; it submits nothing. *)
Definition is_refusal (ev : EvaluateEvent) : bool :=
  match ev with
  | Rejected _ (Msg s) => s =? "not paused"
  | _ => false
  end.

(** What a trace says about the submitted requests: every clientEvaluate
    request sent and every evaluate promise fulfilled or rejected, the
    refusals apart. *)
Definition service_events (tr : list Effect) : list EvaluateEvent :=
  filter (fun ev => negb (is_refusal ev)) (evaluate_events tr).

Definition fulfilled_grips (evs : list EvaluateEvent) : list Grip :=
  flat_map (fun ev => match ev with Fulfilled _ (VGrip v) => [v] | _ => [] end) evs.

Definition is_evaluate_submission (s : Request * PromiseId) : Prop :=
  type (fst s) = "clientEvaluate" /\ exists p, snd s = GripPromise p.

Definition continuations_of (s : Request * PromiseId) : PendingRequest :=
  {| resolve := snd s; reject := snd s |}.

(** The continuations in [pendingFrameRequests] belong to promises of frames,
    as the type [PendingRequests<Frame[]>] of the field says. *)
Definition frames_typed (w : World) : bool :=
  forallb (fun req =>
             match resolve req, reject req with
             | FramesPromise _, FramesPromise _ => true
             | _, _ => false
             end) (pendingFrameRequests (this w)).

(** The object serves the submissions [subs] and the service events so far are
    [evs]: the events are those of serving the first submissions one at a
    time, the values [vals] having been reported; if a request is active it is
    the oldest unanswered submission; the later submissions are queued in
    order. *)
Definition serves (w : World) (subs : list (Request * PromiseId))
    (evs : list EvaluateEvent) : Prop :=
  exists (vals : list Grip) (active : bool),
    let sent := (if active then S (List.length vals) else List.length vals) in
    sent <= List.length subs
    /\ evs = one_at_a_time (firstn sent subs) vals
    /\ pendingEvaluateRequest (this w)
       = (if active
          then option_map continuations_of (nth_error subs (List.length vals))
          else None)
    /\ queuedEvaluateRequests (this w) = map queued_request (skipn sent subs)
    /\ Forall is_evaluate_submission subs
    /\ queue_is_served w = true
    /\ frames_typed w = true.

(** An action keeps the object serving: it adds its submissions and its
    service events. *)
Definition keeps_serving (a : Action) : Prop :=
  forall w subs evs,
    serves w subs evs ->
    serves (final (exec a w)) (subs ++ submitted a w)
      (evs ++ service_events (trace (exec a w))).

(** * Properties *)

#[local] Arguments roundNumber : simpl never.
#[local] Arguments increment : simpl never.
#[local] Arguments decrement : simpl never.

(** ** Rounding of the operation counter *)

Lemma roundNumber_safe (z : Z) :
  (Z.abs z <= two53)%Z -> roundNumber z = z.
Proof.
  intros Hz. unfold roundNumber.
  destruct (Z.ltb_spec (Z.abs z) two53) as [_|Hge]; [reflexivity|].
  assert (Ha : Z.abs z = two53) by lia.
  assert (Hz' : z = two53 \/ z = (- two53)%Z) by lia.
  destruct Hz' as [-> | ->]; vm_compute; reflexivity.
Qed.

Lemma roundNumber_magnitude (z : Z) :
  (two53 <= Z.abs z)%Z ->
  let a := Z.abs z in
  let ulp := (2 ^ (Z.log2 a - 52))%Z in
  (0 < ulp /\ 1 <= a / ulp /\ 0 <= a mod ulp)%Z.
Proof.
  intros Hz a ulp.
  assert (Ha : (0 < a)%Z) by (unfold a, two53 in *; lia).
  assert (Hlog : (53 <= Z.log2 a)%Z).
  { change 53%Z with (Z.log2 two53). apply Z.log2_le_mono. exact Hz. }
  assert (Hulp : (0 < ulp)%Z) by (apply Z.pow_pos_nonneg; lia).
  assert (Hle : (ulp <= a)%Z).
  { destruct (Z.log2_spec a Ha) as [Hlo _].
    apply Z.le_trans with (2 ^ Z.log2 a)%Z; [|exact Hlo].
    apply Z.pow_le_mono_r; lia. }
  repeat split; [exact Hulp | | apply Z.mod_pos_bound; exact Hulp].
  apply Z.div_le_lower_bound; lia.
Qed.

Lemma roundNumber_pos (z : Z) : (0 < z)%Z -> (0 < roundNumber z)%Z.
Proof.
  intros Hz. unfold roundNumber.
  destruct (Z.ltb_spec (Z.abs z) two53) as [_|Hge]; [exact Hz|].
  destruct (roundNumber_magnitude z Hge) as (Hulp & Hq & _). cbv zeta in *.
  rewrite Z.sgn_pos by exact Hz.
  repeat match goal with |- context [if ?b then _ else _] => destruct b end; nia.
Qed.

Lemma roundNumber_nonpos (z : Z) : (z <= 0)%Z -> (roundNumber z <= 0)%Z.
Proof.
  intros Hz. unfold roundNumber.
  destruct (Z.ltb_spec (Z.abs z) two53) as [_|Hge]; [exact Hz|].
  destruct (roundNumber_magnitude z Hge) as (Hulp & Hq & _). cbv zeta in *.
  assert (Hneg : (z < 0)%Z) by (unfold two53 in *; lia).
  rewrite Z.sgn_neg by exact Hneg.
  repeat match goal with |- context [if ?b then _ else _] => destruct b end; nia.
Qed.

(** The counter is positive after [--] only if it was above one, and only if
    it was positive. *)
Lemma decrement_pos (n : Z) : (1 < n)%Z -> (0 < decrement n)%Z.
Proof. intros Hn. apply roundNumber_pos. lia. Qed.

Lemma decrement_pos_inv (n : Z) : (decrement n > 0)%Z -> (n > 0)%Z.
Proof.
  intros Hd. destruct (Z.le_gt_cases n 0) as [Hn|Hn]; [|lia].
  assert (H := roundNumber_nonpos (n - 1)). unfold decrement in Hd. lia.
Qed.

(** Case analysis on the innermost scrutinee of the goal. *)
Ltac break_match :=
  match goal with
  | |- context [match ?x with _ => _ end] =>
      lazymatch x with
      | context [match _ with _ => _ end] => fail
      | _ => destruct x eqn:?
      end
  end.

(** ** The monad's loop *)

Lemma forEach_tell {A} (f : A -> Effect) (l : list A) (w : World) :
  forEach l (fun x => tell (f x)) w
  = {| final := w; trace := map f l; completion := Normal tt |}.
Proof.
  induction l as [|x l IH]; simpl; [reflexivity|].
  unfold bind at 1; simpl. rewrite IH. reflexivity.
Qed.

#[local] Arguments forEach : simpl never.

(** ** doNext with a running thread and queued evaluate requests *)

(** In the branch of [doNext] that finds queued evaluate requests while the
    thread is running, each queued request is rejected with
    'Thread is running', in queue order, and the object is left as it was: the
    rejected requests stay in the queue. *)
Lemma doNext_running_rejects_in_place (w : World) :
  (operationsRunningOnPausedThread (this w) <= 0)%Z ->
  pendingEvaluateRequest (this w) = None ->
  queuedEvaluateRequests (this w) <> [] ->
  paused (this w) = false ->
  final (doNext w) = w
  /\ rejections (trace (doNext w))
     = map (fun q => (q_reject q, Msg "Thread is running"))
           (queuedEvaluateRequests (this w))
  /\ requests (trace (doNext w)) = [].
Proof.
  destruct w as [[n d p ops pf q pe] k]; simpl.
  intros Hops -> Hq ->.
  destruct q as [|q0 q]; [congruence|].
  unfold doNext, bind; simpl.
  destruct (Z.gtb_spec ops 0) as [Hgt|_]; [lia|]. simpl.
  rewrite forEach_tell. simpl.
  repeat split.
  - f_equal. clear. induction q as [|x q IH]; simpl; congruence.
  - clear. induction q as [|x q IH]; simpl; congruence.
Qed.




(** ** The operation counter and the paused flag *)

Lemma doNext_normal (w : World) : completion (doNext w) = Normal tt.
Proof.
  destruct w as [[n d p ops pf q pe] k].
  unfold doNext, bind; simpl.
  destruct (ops >? 0)%Z, p, pe, q, d; try reflexivity.
  all: simpl; rewrite forEach_tell; reflexivity.
Qed.

Lemma doNext_paused_while_operating (w : World) :
  paused_while_operating w -> paused_while_operating (final (doNext w)).
Proof.
  destruct w as [[n d p ops pf q pe] k]. unfold paused_while_operating; simpl.
  unfold doNext, bind; simpl.
  destruct (Z.gtb_spec ops 0); simpl.
  - destruct p; simpl; auto.
  - intros _.
    destruct p, pe, q, d; simpl; try lia.
    all: rewrite forEach_tell; simpl; lia.
Qed.

Section Calls.

#[local] Arguments doNext : simpl never.
#[local] Opaque doNext.

Ltac use_doNext :=
  match goal with
  | |- context [doNext ?w] =>
      let Hn := fresh "Hn" in
      let Hi := fresh "Hi" in
      pose proof (doNext_normal w) as Hn;
      pose proof (doNext_paused_while_operating w) as Hi;
      destruct (doNext w) as [? ? ?]; simpl in Hn, Hi; subst
  end.

Ltac resume_like_case :=
  unfold resume, stepOver, stepInto, stepOut, resume_like, bind; simpl;
  match goal with |- context [is_paused_state ?d] => destruct d end;
  simpl; auto; use_doNext; simpl; auto.

Lemma receiveResponse_paused_while_operating (response : Response) (w : World) :
  paused_while_operating w ->
  paused_while_operating (final (receiveResponse response w)).
Proof.
  destruct w as [[n d p ops pf q pe] k].
  destruct response as [from ty why src srcs frs err].
  unfold paused_while_operating; simpl; intros H.
  unfold receiveResponse, type_is, error_is, paused_by, deref,
    PendingRequests.resolveOne, PendingRequests.rejectAll, bind.
  repeat (simpl; try rewrite forEach_tell; first [use_doNext | break_match]);
    simpl; try rewrite forEach_tell; simpl; auto.
  all: match goal with
       | Hi : paused_while_operating _ -> paused_while_operating ?w
         |- context [?w] => apply Hi; unfold paused_while_operating; simpl; auto
       end.
Qed.

Lemma perform_paused_while_operating (c : Call) (w : World) :
  paused_while_operating w -> paused_while_operating (final (perform c w)).
Proof.
  destruct c; try apply receiveResponse_paused_while_operating.
  all: destruct w as [[n d p ops pf q pe] k]; unfold paused_while_operating;
    simpl.
  - unfold interrupt, bind; simpl. destruct p; simpl; auto.
  - resume_like_case.
  - resume_like_case.
  - resume_like_case.
  - resume_like_case.
  - unfold fetchStackFrames, Promise_reject, newPromise,
      PendingRequests.enqueue, try_catch, bind; simpl.
    destruct d, p; simpl; auto.
  - unfold evaluate, Promise_reject, newPromise, try_catch, bind; simpl.
    destruct d; simpl; auto.
    use_doNext; simpl; auto.
  - unfold operationFinishedOnPausedThread, bind; simpl.
    use_doNext; simpl. intros H. apply Hi.
    unfold paused_while_operating; simpl.
    intros Hd; apply H, decrement_pos_inv, Hd.
Qed.

End Calls.

Lemma exec_RunOnPausedThread (operation : list Action) :
  exec (RunOnPausedThread operation)
  = (runOnPausedThread (fun _ => exec_all operation ;; ret VUndefined) ;; ret tt).
Proof. reflexivity. Qed.

Lemma exec_all_paused_while_operating (l : list Action) :
  Forall (fun a => forall w, paused_while_operating w ->
                             paused_while_operating (final (exec a w))) l ->
  forall w, paused_while_operating w ->
            paused_while_operating (final (exec_all l w)).
Proof.
  induction 1 as [|a l Ha _ IH]; intros w Hw; [exact Hw|].
  cbn [exec_all]. unfold bind.
  specialize (Ha w Hw). destruct (exec a w) as [w1 t1 [[]|e]]; simpl in *.
  - specialize (IH w1 Ha). destruct (exec_all l w1); exact IH.
  - exact Ha.
Qed.

Lemma runOnPausedThread_paused_while_operating
    (operation : M unit -> M Value) (w : World) :
  (forall finished w', paused_while_operating w' ->
                       paused_while_operating (final (operation finished w'))) ->
  paused_while_operating (final (runOnPausedThread operation w)).
Proof.
  intros Hop. destruct w as [[n d p ops pf q pe] k].
  unfold runOnPausedThread, newPromise, try_catch, sendPauseRequest, bind; simpl.
  set (w' := {| this := _; promises := S k |}).
  assert (Hw' : paused_while_operating
                  (final ((if negb p then
                             fun w => {| final := {| this := set_paused true (this w);
                                                     promises := promises w |};
                                         trace := [Log debug [Str "Sending pause request to thread "; Str (_name (this w))];
                                                   SendRequest (request (_name (this w)) "interrupt")];
                                         completion := Normal tt |}
                           else ret tt) w'))).
  { destruct p; unfold paused_while_operating; simpl; auto. }
  destruct p; simpl in *.
  - specialize (Hop operationFinishedOnPausedThread _ Hw').
    destruct (operation _ _) as [w1 t1 [v|e]]; simpl in *; exact Hop.
  - specialize (Hop operationFinishedOnPausedThread _ Hw').
    destruct (operation _ _) as [w1 t1 [v|e]]; simpl in *; exact Hop.
Qed.

Lemma exec_paused_while_operating (a : Action) :
  forall w, paused_while_operating w -> paused_while_operating (final (exec a w)).
Proof.
  induction a as [c|operation IH] using Action_ind; intros w Hw.
  - apply perform_paused_while_operating, Hw.
  - rewrite exec_RunOnPausedThread. unfold bind at 1.
    pose proof (runOnPausedThread_paused_while_operating
                  (fun _ => exec_all operation ;; ret VUndefined) w) as Hrun.
    destruct (runOnPausedThread _ w) as [w1 t1 [p|e]]; simpl in *; apply Hrun.
    all: intros _ w' Hw'; unfold bind;
      pose proof (exec_all_paused_while_operating operation IH w' Hw') as H';
      destruct (exec_all operation w') as [w2 t2 [[]|e']]; exact H'.
Qed.

(** C2: in every state reachable from the constructed object by calls of the
    control operations, completion callbacks and deliveries of messages, a
    positive [operationsRunningOnPausedThread] implies [paused]. *)
Theorem reachable_paused_while_operating (w : World) :
  reachable w ->
  (operationsRunningOnPausedThread (this w) > 0)%Z ->
  paused (this w) = true.
Proof.
  intros Hr. change (paused_while_operating w).
  induction Hr as [n|w a _ IH].
  - intros _. reflexivity.
  - apply exec_paused_while_operating, IH.
Qed.

Lemma reachable_paused_while_operating_witness :
  paused (this (turn (RunOnPausedThread [Do call_stepOver])
                  (turn (Do call_resume) thread1))) = true.
Proof.
  apply reachable_paused_while_operating.
  - do 2 apply reachable_turn. apply reachable_constructed.
  - vm_compute. reflexivity.
Defined.

(** ** Evaluate requests are served in order, one at a time *)

Lemma one_at_a_time_cons (s : Request * PromiseId) subs vals :
  one_at_a_time (s :: subs) vals = Sent (fst s) :: tl (one_at_a_time (s :: subs) vals).
Proof. destruct s; reflexivity. Qed.

Lemma evaluate_while_idle n ops pf k expr frameActorName :
  (ops <= 0)%Z ->
  let r := exec (Do (call_evaluate expr frameActorName)) (serving n ops pf k []) in
  final r = serving n ops pf (S k)
              [(clientEvaluate_request n expr frameActorName, GripPromise k)]
  /\ evaluate_events (trace r) = [Sent (clientEvaluate_request n expr frameActorName)].
Proof.
  intros Hops.
  unfold serving, exec, perform, evaluate, newPromise, try_catch, doNext, bind; simpl.
  destruct (Z.gtb_spec ops 0); [lia|]. simpl. split; reflexivity.
Qed.

Lemma evaluate_while_busy n ops pf k expr frameActorName s outs :
  (ops <= 0)%Z ->
  let r := exec (Do (call_evaluate expr frameActorName)) (serving n ops pf k (s :: outs)) in
  final r = serving n ops pf (S k)
              ((s :: outs) ++ [(clientEvaluate_request n expr frameActorName, GripPromise k)])
  /\ evaluate_events (trace r) = [].
Proof.
  intros Hops.
  unfold serving, exec, perform, evaluate, newPromise, try_catch, doNext, bind; simpl.
  destruct (Z.gtb_spec ops 0); [lia|]. simpl. split; [|reflexivity].
  rewrite map_app. reflexivity.
Qed.

Lemma evaluated_last n ops pf k v r p :
  (ops <= 0)%Z ->
  let res := exec (Do (deliver (clientEvaluated n v))) (serving n ops pf k [(r, GripPromise p)]) in
  final res = serving n ops pf k []
  /\ evaluate_events (trace res) = [Fulfilled (GripPromise p) (VGrip v)].
Proof.
  intros Hops.
  unfold serving, exec, perform, receiveResponse, doNext, bind; simpl.
  destruct (Z.gtb_spec ops 0); [lia|]. simpl. split; reflexivity.
Qed.

Lemma evaluated_next n ops pf k v r p s outs :
  (ops <= 0)%Z ->
  let res := exec (Do (deliver (clientEvaluated n v)))
               (serving n ops pf k ((r, GripPromise p) :: s :: outs)) in
  final res = serving n ops pf k (s :: outs)
  /\ evaluate_events (trace res)
     = [Fulfilled (GripPromise p) (VGrip v)]
       ++ (if type (fst s) =? "clientEvaluate" then [Sent (fst s)] else []).
Proof.
  intros Hops.
  unfold serving, exec, perform, receiveResponse, doNext, bind; simpl.
  destruct (Z.gtb_spec ops 0); [lia|]. simpl. split; [reflexivity|].
  rewrite app_nil_r. reflexivity.
Qed.

Lemma submissions_are_submissions n script :
  forall k, Forall (is_submission n) (submissions n k script).
Proof.
  induction script as [|[e f|v] script IH]; intros k; simpl; auto.
  constructor; [|apply IH]. exists e, f, k. reflexivity.
Qed.

Lemma run_cons (a : Action) (l : list Action) (w : World) :
  run (a :: l) w
  = (fst (run l (final (exec a w))),
     trace (exec a w) ++ snd (run l (final (exec a w)))).
Proof. cbn [run]. destruct (run l _); reflexivity. Qed.

Lemma evaluate_events_app (t1 t2 : list Effect) :
  evaluate_events (t1 ++ t2) = evaluate_events t1 ++ evaluate_events t2.
Proof. apply flat_map_app. Qed.

Lemma serve_script n ops pf :
  (ops <= 0)%Z ->
  forall script k outs,
    Forall (is_submission n) outs ->
    answers_requests (List.length outs) script = true ->
    let subs := outs ++ submissions n k script in
    fst (run (map (evaluate_action n) script) (serving n ops pf k outs))
    = serving n ops pf (k + List.length (submissions n k script))
        (skipn (List.length (reported script)) subs)
    /\ evaluate_events (snd (run (map (evaluate_action n) script) (serving n ops pf k outs)))
       = match outs with
         | [] => one_at_a_time subs (reported script)
         | _ :: _ => tl (one_at_a_time subs (reported script))
         end.
Proof.
  intros Hops. induction script as [|[e f|v] script IH]; intros k outs Houts Hans.
  - simpl. rewrite app_nil_r, Nat.add_0_r. split; [reflexivity|].
    destruct outs as [|[r p] outs]; reflexivity.
  - (* a call of evaluate *)
    cbn [map evaluate_action submissions reported flat_map answers_requests app] in *.
    rewrite run_cons; cbn [fst snd]; rewrite evaluate_events_app.
    set (s := (clientEvaluate_request n e f, GripPromise k)).
    assert (Hs : is_submission n s) by (exists e, f, k; reflexivity).
    destruct outs as [|s0 outs].
    + destruct (evaluate_while_idle n ops pf k e f Hops) as [Hw Htr].
      fold s in Hw, Htr. rewrite Hw, Htr.
      destruct (IH (S k) [s] (Forall_cons _ Hs (Forall_nil _)) Hans) as [IHw IHtr].
      rewrite IHw, IHtr. cbn [app List.length]. split.
      * f_equal. lia.
      * rewrite (one_at_a_time_cons s). reflexivity.
    + destruct (evaluate_while_busy n ops pf k e f s0 outs Hops) as [Hw Htr].
      fold s in Hw, Htr. rewrite Hw, Htr.
      assert (Hall : Forall (is_submission n) ((s0 :: outs) ++ [s])).
      { apply Forall_app. split; [exact Houts|]. constructor; [exact Hs|constructor]. }
      assert (Hlen : List.length ((s0 :: outs) ++ [s]) = S (List.length (s0 :: outs))).
      { rewrite length_app. simpl. lia. }
      rewrite <- Hlen in Hans.
      destruct (IH (S k) _ Hall Hans) as [IHw IHtr].
      rewrite IHw, IHtr. rewrite <- !app_assoc. cbn [app List.length]. split.
      * f_equal. lia.
      * reflexivity.
  - (* the end of an evaluation is reported *)
    cbn [map evaluate_action submissions reported flat_map answers_requests app] in *.
    rewrite run_cons; cbn [fst snd]; rewrite evaluate_events_app.
    destruct outs as [|s0 outs]; [discriminate|].
    cbn [List.length] in Hans.
    inversion Houts as [|? ? Hs0 Houts']; subst.
    destruct Hs0 as (e0 & f0 & p0 & ->).
    destruct outs as [|s1 outs].
    + destruct (evaluated_last n ops pf k v (clientEvaluate_request n e0 f0) p0 Hops)
        as [Hw Htr].
      rewrite Hw, Htr.
      destruct (IH k [] Houts' Hans) as [IHw IHtr].
      rewrite IHw, IHtr. split; reflexivity.
    + destruct (evaluated_next n ops pf k v (clientEvaluate_request n e0 f0) p0 s1 outs Hops)
        as [Hw Htr].
      rewrite Hw, Htr.
      destruct (IH k (s1 :: outs) Houts' Hans) as [IHw IHtr].
      rewrite IHw, IHtr. split; [reflexivity|].
      inversion Houts' as [|? ? Hs1 _]; subst.
      destruct Hs1 as (e1 & f1 & p1 & ->). reflexivity.
Qed.

Lemma sent_requests_one_at_a_time subs :
  forall vals,
    sent_requests (one_at_a_time subs vals)
    = firstn (S (List.length vals)) (map fst subs).
Proof.
  induction subs as [|[r p] subs IH]; intros vals; [reflexivity|].
  destruct vals as [|v vals]; simpl.
  - destruct (map fst subs); reflexivity.
  - f_equal. apply IH.
Qed.

(** A session that only evaluates: evaluate calls, started while the thread is
    paused, wanted paused and idle, and in which the end of an evaluation is
    reported only while one is outstanding.  The clientEvaluate requests sent and the
    evaluate promises settled are, in trace order: the first request sent, its
    promise fulfilled, the second request sent, its promise fulfilled, and so
    on.  So the requests go out in the order of the calls, each one after the
    promise of the one before is settled; and at the end the oldest
    unanswered request is the single [pendingEvaluateRequest] while the later
    ones wait in [queuedEvaluateRequests] in order. *)
Theorem evaluate_requests_served_in_order (w : World) (script : list EvaluateStep) :
  desiredState (this w) = Paused ->
  paused (this w) = true ->
  (operationsRunningOnPausedThread (this w) <= 0)%Z ->
  pendingEvaluateRequest (this w) = None ->
  queuedEvaluateRequests (this w) = [] ->
  answers_requests 0 script = true ->
  let n := _name (this w) in
  let subs := submissions n (promises w) script in
  let outcome := run (map (evaluate_action n) script) w in
  let unanswered := skipn (List.length (reported script)) subs in
  evaluate_events (snd outcome) = one_at_a_time subs (reported script)
  /\ sent_requests (evaluate_events (snd outcome))
     = firstn (S (List.length (reported script))) (map fst subs)
  /\ pendingEvaluateRequest (this (fst outcome))
     = match unanswered with
       | [] => None
       | s :: _ => Some {| resolve := snd s; reject := snd s |}
       end
  /\ queuedEvaluateRequests (this (fst outcome))
     = map queued_request (tl unanswered).
Proof.
  destruct w as [[n d p ops pf q pe] k]; simpl.
  intros -> -> Hops -> -> Hans.
  destruct (serve_script n ops pf Hops script k [] (Forall_nil _) Hans) as [Hw Htr].
  change (serving n ops pf k []) with
    {| this := {| _name := n; desiredState := Paused; paused := true;
                  operationsRunningOnPausedThread := ops;
                  pendingFrameRequests := pf; queuedEvaluateRequests := [];
                  pendingEvaluateRequest := None |};
       promises := k |} in Hw, Htr.
  cbn [app] in Hw, Htr.
  rewrite Htr, Hw, sent_requests_one_at_a_time.
  repeat split; reflexivity.
Qed.

Lemma evaluate_requests_served_in_order_witness :
  evaluate_events
    (snd (run (map (evaluate_action "thread1")
                 [Evaluate "1+1" "frame1"; Evaluate "2+2" "frame1"; Evaluated "2"])
              thread1))
  = [Sent (clientEvaluate_request "thread1" "1+1" "frame1");
     Fulfilled (GripPromise 0) (VGrip "2");
     Sent (clientEvaluate_request "thread1" "2+2" "frame1")].
Proof.
  apply (evaluate_requests_served_in_order thread1
           [Evaluate "1+1" "frame1"; Evaluate "2+2" "frame1"; Evaluated "2"]);
    solve [reflexivity | vm_compute; discriminate].
Defined.

(** ** Which events invoke doNext *)

Lemma doNext_eta (w : World) :
  doNext w = {| final := final (doNext w); trace := trace (doNext w);
                completion := Normal tt |}.
Proof.
  pose proof (doNext_normal w) as H. destruct (doNext w); simpl in *.
  congruence.
Qed.

Lemma doNext_desiredState (w : World) :
  desiredState (this (final (doNext w))) = desiredState (this w).
Proof.
  destruct w as [[n d p ops pf q pe] k].
  unfold doNext, bind; simpl.
  destruct (ops >? 0)%Z, p, pe, q, d; try reflexivity.
  all: simpl; rewrite forEach_tell; reflexivity.
Qed.

Lemma doNext_enters (w : World) :
  exists t, trace (doNext w) = EnterDoNext :: t.
Proof.
  unfold doNext. unfold bind at 1. simpl.
  match goal with |- context [match ?m with _ => _ end] => destruct m end.
  simpl. eauto.
Qed.

Lemma invokes_doNext_on_enters (w' : World) (tr : list Effect) :
  invokes_doNext_on w' tr -> In EnterDoNext tr.
Proof.
  intros (pre & post & ->). destruct (doNext_enters w') as [t ->].
  apply in_or_app. right. left. reflexivity.
Qed.

Lemma interrupt_effect (w : World) :
  ~ In EnterDoNext (trace (interrupt w))
  /\ desiredState (this (final (interrupt w))) = Paused
  /\ paused (this (final (interrupt w))) = true
  /\ requests (trace (interrupt w))
     = (if paused (this w) then [] else [request (_name (this w)) "interrupt"]).
Proof.
  destruct w as [[n d p ops pf q pe] k].
  unfold interrupt, sendPauseRequest, bind; simpl.
  destruct p; simpl; repeat split; try reflexivity.
  all: intros H; repeat (destruct H as [H|H]; [discriminate|]); exact H.
Qed.

Section AfterChange.

#[local] Arguments doNext : simpl never.
#[local] Opaque doNext.
#[local] Arguments runs_doNext_on : simpl never.
#[local] Arguments object_after_change : simpl never.

Ltac same_desiredState :=
  let Hch := fresh "Hch" in
  intros Hch; exfalso; apply Hch; simpl;
  rewrite ?doNext_desiredState; reflexivity.

Ltac doNext_between pre post :=
  intros _; unfold runs_doNext_on, object_after_change, silent; simpl;
  rewrite ?doNext_desiredState; simpl;
  split; [reflexivity|];
  exists pre, post; simpl; rewrite ?app_nil_r; repeat split; reflexivity.

Lemma resume_like_runs_doNext (c : Call) method target (w : World) :
  is_message c = false ->
  desiredState (this (final (resume_like method target w)))
    <> desiredState (this w) ->
  runs_doNext_on
    (object_after_change c
       (desiredState (this (final (resume_like method target w)))) w)
    (resume_like method target w).
Proof.
  destruct w as [[n d p ops pf q pe] k]. intros Hc.
  unfold object_after_change. rewrite Hc.
  unfold resume_like, bind; simpl.
  destruct d; simpl; try same_desiredState.
  match goal with |- context [match doNext ?w0 with _ => _ end] =>
    rewrite (doNext_eta w0); simpl
  end.
  doNext_between [Log debug [Str "Resuming thread "; Str n]] (@nil Effect).
Qed.

Lemma receiveResponse_runs_doNext (response : Response) (w : World) :
  desiredState (this (final (receiveResponse response w)))
    <> desiredState (this w) ->
  runs_doNext_on
    (object_after_change (deliver response)
       (desiredState (this (final (receiveResponse response w)))) w)
    (receiveResponse response w).
Proof.
  destruct w as [[n d p ops pf q pe] k].
  destruct response as [from ty why src srcs frs err].
  unfold object_after_change, is_message.
  unfold receiveResponse, type_is, error_is, paused_by, deref,
    PendingRequests.resolveOne, PendingRequests.rejectAll, bind.
  repeat (simpl; try rewrite forEach_tell;
          first [ match goal with
                  | |- context [match doNext ?w with _ => _ end] =>
                      rewrite (doNext_eta w)
                  end
                | break_match ]);
    simpl; try rewrite forEach_tell; simpl; try same_desiredState.
  all: doNext_between
         [Log debug [Str "Thread "; Str n; Str " paused"];
          Log debug [Str "Received paused event of type "; Str (why_type t)]]
         [Emit (paused_event (why_type t))].
Qed.

End AfterChange.

Lemma perform_runs_doNext (c : Call) (w : World) :
  c <> call_interrupt ->
  desiredState (this (final (perform c w))) <> desiredState (this w) ->
  runs_doNext_on
    (object_after_change c (desiredState (this (final (perform c w)))) w)
    (perform c w).
Proof.
  intros Hc Hch.
  destruct c; try congruence; cbn [perform] in *.
  1-4: apply resume_like_runs_doNext; [reflexivity|exact Hch].
  4: apply receiveResponse_runs_doNext; exact Hch.
  all: exfalso; apply Hch; clear Hch Hc;
    destruct w as [[n d p ops pf q pe] k].
  - unfold fetchStackFrames, Promise_reject, newPromise,
      PendingRequests.enqueue, try_catch, bind; simpl.
    destruct d, p; reflexivity.
  - unfold evaluate, Promise_reject, newPromise, try_catch, bind; simpl.
    destruct d; simpl; try reflexivity.
    match goal with |- context [doNext ?w0] =>
      rewrite (doNext_eta w0); simpl; apply (doNext_desiredState w0) end.
  - unfold operationFinishedOnPausedThread, bind; simpl.
    match goal with |- context [doNext ?w0] =>
      rewrite (doNext_eta w0); simpl; apply (doNext_desiredState w0) end.
Qed.

Lemma doNext_entries_enter (w : World) (pre post : list Effect) :
  doNext_entries pre = 0 -> doNext_entries post = 0 ->
  doNext_entries (pre ++ trace (doNext w) ++ post) = 1.
Proof.
  intros Hpre Hpost. unfold doNext_entries in *.
  rewrite !filter_app, !length_app, Hpre, Hpost.
  destruct w as [[n d p ops pf q pe] k].
  unfold doNext, bind; simpl.
  destruct (ops >? 0)%Z, p, pe, q, d; try reflexivity.
  all: simpl; rewrite forEach_tell; simpl.
  all: match goal with |- context [map _ ?l] => induction l; simpl; auto end.
Qed.

(** C4, as the code has it: every call or message other than [interrupt()]
    that changes [desiredState] runs [doNext] exactly once, after the change
    and on the object as the change left it (the new [desiredState], and
    [paused] set if the change came with a 'paused' message, nothing else
    touched); apart from logging before and emitting after, the call does
    what that run of [doNext] does and ends where it ends.  [interrupt()]
    never enters [doNext]: it sets [desiredState] to 'paused' and, only if the
    thread is not paused, sends the interrupt request itself and marks the
    thread paused. *)
Theorem desiredState_change_and_doNext (c : Call) (w : World) :
  (c <> call_interrupt ->
   desiredState (this (final (perform c w))) <> desiredState (this w) ->
   let w' :=
     object_after_change c (desiredState (this (final (perform c w)))) w in
   In EnterDoNext (trace (perform c w))
   /\ final (perform c w) = final (doNext w')
   /\ (exists pre post,
         trace (perform c w) = pre ++ trace (doNext w') ++ post
         /\ silent pre /\ silent post)
   /\ doNext_entries (trace (perform c w)) = 1
   /\ requests (trace (perform c w)) = requests (trace (doNext w'))
   /\ invoked (trace (perform c w)) = invoked (trace (doNext w')))
  /\ (~ In EnterDoNext (trace (perform call_interrupt w))
      /\ desiredState (this (final (perform call_interrupt w))) = Paused
      /\ paused (this (final (perform call_interrupt w))) = true
      /\ requests (trace (perform call_interrupt w))
         = (if paused (this w) then []
            else [request (_name (this w)) "interrupt"])).
Proof.
  split; [|apply interrupt_effect].
  intros Hc Hch w'.
  destruct (perform_runs_doNext c w Hc Hch)
    as (Hfinal & pre & post & Htr & Hpre & Hpost).
  fold w' in Hfinal, Htr.
  destruct Hpre as (Hpre1 & Hpre2 & Hpre3).
  destruct Hpost as (Hpost1 & Hpost2 & Hpost3).
  split.
  { apply (invokes_doNext_on_enters w'). exists pre, post. exact Htr. }
  split; [exact Hfinal|].
  split.
  { exists pre, post. repeat split; assumption. }
  rewrite Htr. split; [apply doNext_entries_enter; assumption|].
  unfold requests, invoked in *.
  rewrite !flat_map_app, Hpre2, Hpost2, Hpre3, Hpost3, !app_nil_r.
  split; reflexivity.
Qed.

Lemma desiredState_change_and_doNext_witness :
  In EnterDoNext (trace (perform call_stepOver thread1)).
Proof.
  apply (desiredState_change_and_doNext call_stepOver thread1).
  - discriminate.
  - vm_compute. discriminate.
Defined.

(** C4 as stated fails: on a running thread [interrupt()] changes
    [desiredState] from 'running' to 'paused' and returns without having
    entered [doNext]. *)
Lemma interrupt_changes_desiredState_without_doNext :
  desiredState (this running_thread) = Running
  /\ desiredState (this (final (perform call_interrupt running_thread))) = Paused
  /\ ~ In EnterDoNext (trace (perform call_interrupt running_thread)).
Proof.
  repeat split; try reflexivity.
  vm_compute. intros H.
  repeat (destruct H as [H|H]; [discriminate|]). exact H.
Qed.

(** ** interrupt() on a paused thread *)

Lemma requests_app (t1 t2 : list Effect) :
  requests (t1 ++ t2) = requests t1 ++ requests t2.
Proof. apply flat_map_app. Qed.

Lemma interrupt_paused_thread (w : World) :
  paused (this w) = true ->
  final (interrupt w)
  = {| this := set_desiredState Paused (this w); promises := promises w |}
  /\ requests (trace (interrupt w)) = [].
Proof.
  destruct w as [[n d p ops pf q pe] k]; simpl. intros ->.
  unfold interrupt, bind; simpl. split; reflexivity.
Qed.

Lemma interrupt_again (n : nat) (w : World) :
  paused (this w) = true ->
  desiredState (this w) = Paused ->
  fst (run (repeat (Do call_interrupt) n) w) = w
  /\ requests (snd (run (repeat (Do call_interrupt) n) w)) = [].
Proof.
  intros Hp Hd. induction n as [|n [IHw IHr]]; [split; reflexivity|].
  cbn [repeat]. rewrite run_cons. cbn [fst snd exec perform].
  destruct (interrupt_paused_thread w Hp) as [Hw Hr].
  assert (Hsame : final (interrupt w) = w).
  { rewrite Hw. destruct w as [[] ?]; simpl in *. subst. reflexivity. }
  rewrite requests_app, Hsame, Hr, IHw, IHr. split; reflexivity.
Qed.

(** Whatever the state, only the first of consecutive [interrupt()] calls
    can send a request. *)
Lemma interrupt_sends_at_most_once (w : World) (n : nat) :
  requests (snd (run (repeat (Do call_interrupt) (S n)) w))
  = requests (trace (interrupt w))
  /\ fst (run (repeat (Do call_interrupt) (S n)) w) = final (interrupt w).
Proof.
  cbn [repeat]. rewrite run_cons. cbn [fst snd exec perform].
  destruct (interrupt_effect w) as (_ & Hd & Hp & _).
  destruct (interrupt_again n _ Hp Hd) as [IHw IHr].
  rewrite requests_app, IHw, IHr, app_nil_r. split; reflexivity.
Qed.

(** C5: on a thread that is paused, any number of consecutive calls of
    [interrupt()] sends no request at all, hence none beyond what the first
    call sends, and after every call [desiredState] is 'paused' and [paused]
    is true; the calls after the first leave the object as it is. *)
Theorem interrupt_idempotent (w : World) (n : nat) :
  paused (this w) = true ->
  let outcome := run (repeat (Do call_interrupt) (S n)) w in
  requests (snd outcome) = requests (trace (interrupt w))
  /\ requests (snd outcome) = []
  /\ fst outcome = final (interrupt w)
  /\ desiredState (this (fst outcome)) = Paused
  /\ paused (this (fst outcome)) = true.
Proof.
  intros Hp. cbn [repeat]. cbv zeta. rewrite run_cons. cbn [fst snd exec perform].
  destruct (interrupt_paused_thread w Hp) as [Hw Hr].
  assert (Hp' : paused (this (final (interrupt w))) = true)
    by (rewrite Hw; destruct w as [[] ?]; exact Hp).
  assert (Hd' : desiredState (this (final (interrupt w))) = Paused)
    by (rewrite Hw; reflexivity).
  destruct (interrupt_again n _ Hp' Hd') as [IHw IHr].
  rewrite requests_app, IHw, IHr, Hr. repeat split; assumption.
Qed.

Lemma interrupt_idempotent_witness :
  requests (snd (run (repeat (Do call_interrupt) 3) thread1)) = [].
Proof.
  apply (interrupt_idempotent thread1 2). reflexivity.
Defined.

(** ** fetchStackFrames() *)

(** C6: [fetchStackFrames()] returns a new promise.  If [desiredState] is not
    'paused' or the thread is not paused, the promise is rejected at once with
    'not paused', nothing is sent and the object is unchanged.  Otherwise the
    promise's continuations are entered into [pendingFrameRequests], exactly
    one request, of type 'frames', is sent, no continuation is invoked, and no
    other field changes. *)
Theorem fetchStackFrames_effect (w : World) :
  let r := fetchStackFrames w in
  let promise := FramesPromise (promises w) in
  completion r = Normal promise
  /\ promises (final r) = S (promises w)
  /\ doNext_entries (trace r) = 0
  /\ if is_paused_state (desiredState (this w)) && paused (this w) then
       this (final r)
       = this (final (PendingRequests.enqueue
                        {| resolve := promise; reject := promise |} w))
       /\ this (final r)
          = set_pendingFrameRequests
              (pendingFrameRequests (this w)
                 ++ [{| resolve := promise; reject := promise |}]) (this w)
       /\ requests (trace r) = [request (_name (this w)) "frames"]
       /\ invoked (trace r) = []
     else
       this (final r) = this w
       /\ rejections (trace r) = [(promise, Msg "not paused")]
       /\ resolutions (trace r) = []
       /\ requests (trace r) = [].
Proof.
  destruct w as [[n d p ops pf q pe] k].
  unfold fetchStackFrames, Promise_reject, newPromise, PendingRequests.enqueue,
    try_catch, bind; simpl.
  destruct d, p; simpl; repeat split; reflexivity.
Qed.

(** ** The 'exited' message *)

Lemma receiveResponse_exited (response : Response) (w : World) :
  rsp_type response = Some "exited" ->
  rsp_sources response = None ->
  rsp_frames response = None ->
  receiveResponse response w
  = {| final := {| this := set_pendingFrameRequests [] (this w);
                   promises := promises w |};
       trace := Log debug [Str "Thread "; Str (_name (this w)); Str " exited"]
                :: map (fun req => Reject (reject req) (Msg "Exited"))
                       (pendingFrameRequests (this w))
                ++ [Emit exited_event];
       completion := Normal tt |}.
Proof.
  destruct w as [[n d p ops pf q pe] k].
  destruct response as [from ty why src srcs frs err]; simpl.
  intros -> -> ->.
  unfold receiveResponse, type_is, PendingRequests.rejectAll, bind; simpl.
  rewrite forEach_tell; simpl. rewrite app_nil_r. reflexivity.
Qed.

Lemma rejections_of_rejects (pf : list PendingRequest) (err : string) tl :
  rejections (map (fun req => Reject (reject req) (Msg err)) pf ++ tl)
  = map (fun req => (reject req, Msg err)) pf ++ rejections tl.
Proof. induction pf as [|req pf IH]; simpl; [reflexivity|]. now rewrite IH. Qed.

Lemma filter_rejects {B} (f : Effect -> list B) (pf : list PendingRequest)
    (err : string) tl :
  (forall p r, f (Reject p r) = []) ->
  flat_map f (map (fun req => Reject (reject req) (Msg err)) pf ++ tl)
  = flat_map f tl.
Proof.
  intros Hf. induction pf as [|req pf IH]; simpl; [reflexivity|].
  rewrite Hf. exact IH.
Qed.

(** C7: the handler of an 'exited' message (a message of type 'exited' that
    carries neither sources nor frames) rejects the continuation of every
    outstanding frame request with 'Exited', in order, emits 'exited' once,
    does not enter [doNext], sends nothing, resolves nothing and changes no
    field other than [pendingFrameRequests]. *)
Theorem exited_rejects_frame_requests (response : Response) (w : World) :
  rsp_type response = Some "exited" ->
  rsp_sources response = None ->
  rsp_frames response = None ->
  let r := receiveResponse response w in
  rejections (trace r)
  = map (fun req => (reject req, Msg "Exited")) (pendingFrameRequests (this w))
  /\ emitted (trace r) = [exited_event]
  /\ doNext_entries (trace r) = 0
  /\ requests (trace r) = []
  /\ resolutions (trace r) = []
  /\ completion r = Normal tt
  /\ promises (final r) = promises w
  /\ set_pendingFrameRequests (pendingFrameRequests (this w)) (this (final r))
     = this w.
Proof.
  intros Hty Hsrcs Hfrs. cbv zeta.
  rewrite (receiveResponse_exited response w Hty Hsrcs Hfrs).
  cbn [trace final completion this promises].
  repeat split.
  - change (Log ?l ?m :: ?t) with ([Log l m] ++ t).
    unfold rejections at 1. rewrite flat_map_app. fold rejections.
    rewrite rejections_of_rejects. simpl. now rewrite app_nil_r.
  - unfold emitted. cbn [flat_map app]. now rewrite filter_rejects.
  - unfold doNext_entries. cbn [filter].
    induction (pendingFrameRequests (this w)); simpl; auto.
  - unfold requests. cbn [flat_map app]. now rewrite filter_rejects.
  - unfold resolutions. cbn [flat_map app]. now rewrite filter_rejects.
  - destruct w as [[] ?]; reflexivity.
Qed.

Lemma exited_rejects_frame_requests_witness :
  rejections (trace (receiveResponse (exited "thread1") two_frame_requests))
  = [(FramesPromise 0, Msg "Exited"); (FramesPromise 1, Msg "Exited")].
Proof.
  apply (exited_rejects_frame_requests (exited "thread1") two_frame_requests);
    reflexivity.
Defined.

Lemma invoked_of_rejects (pf : list PendingRequest) (err : string) :
  invoked (map (fun req => Reject (reject req) (Msg err)) pf) = map reject pf.
Proof. induction pf as [|req pf IH]; simpl; [reflexivity|]. now rewrite IH. Qed.

(** C10: the handler of an 'exited' message leaves [queuedEvaluateRequests]
    and [pendingEvaluateRequest] as they are and invokes only the rejection
    continuations of the frame requests; so, the continuations of frame
    requests being no continuations of evaluate requests, no continuation of
    a queued or active evaluate request is invoked. *)
Theorem exited_leaves_evaluate_requests (response : Response) (w : World) :
  rsp_type response = Some "exited" ->
  rsp_sources response = None ->
  rsp_frames response = None ->
  (forall p, In p (frame_continuations (this w)) ->
             ~ In p (evaluate_continuations (this w))) ->
  let r := receiveResponse response w in
  queuedEvaluateRequests (this (final r)) = queuedEvaluateRequests (this w)
  /\ pendingEvaluateRequest (this (final r)) = pendingEvaluateRequest (this w)
  /\ invoked (trace r) = map reject (pendingFrameRequests (this w))
  /\ (forall p, In p (evaluate_continuations (this w)) ->
                ~ In p (invoked (trace r)))
  /\ evaluate_continuations (this (final r)) = evaluate_continuations (this w).
Proof.
  intros Hty Hsrcs Hfrs Hdisjoint. cbv zeta.
  rewrite (receiveResponse_exited response w Hty Hsrcs Hfrs).
  cbn [trace final completion this promises].
  assert (Hinv : invoked
            (Log debug [Str "Thread "; Str (_name (this w)); Str " exited"]
             :: map (fun req => Reject (reject req) (Msg "Exited"))
                    (pendingFrameRequests (this w)) ++ [Emit exited_event])
          = map reject (pendingFrameRequests (this w))).
  { unfold invoked. cbn [flat_map app]. rewrite flat_map_app. fold invoked.
    rewrite invoked_of_rejects. simpl. now rewrite app_nil_r. }
  rewrite Hinv.
  repeat split.
  intros p Hp Hin. apply (Hdisjoint p); [|exact Hp].
  apply in_map_iff in Hin. destruct Hin as (req & <- & Hreq).
  unfold frame_continuations. apply in_flat_map. exists req.
  split; [exact Hreq|]. right. left. reflexivity.
Qed.

Lemma exited_leaves_evaluate_requests_witness :
  queuedEvaluateRequests
    (this (final (receiveResponse (exited "thread1") evaluating_thread)))
  = queuedEvaluateRequests (this evaluating_thread).
Proof.
  apply (exited_leaves_evaluate_requests (exited "thread1") evaluating_thread);
    try reflexivity.
  vm_compute. intros p Hf He.
  repeat (destruct Hf as [<-|Hf];
          [repeat (destruct He as [He|He]; [discriminate|]); exact He|]).
  exact Hf.
Defined.

(** ** stepOver() and the pause that ends the step *)

(** C8: on a paused thread that is wanted paused, with no operation running
    on it, no active and no queued evaluate request, [stepOver()] sends
    exactly one request, a resume with resumeLimit 'next', and clears
    [paused].  Handling then a 'paused' message with reason 'resumeLimit'
    sets [paused], puts [desiredState] back to 'paused', runs [doNext] once
    (which finds nothing to do) and emits one 'paused' event with reason
    'resumeLimit'; the object is as before the step. *)
Theorem stepOver_then_resumeLimit (w : World) (response : Response)
    (completionValue : option CompletionValue) :
  desiredState (this w) = Paused ->
  paused (this w) = true ->
  operationsRunningOnPausedThread (this w) = 0%Z ->
  pendingEvaluateRequest (this w) = None ->
  queuedEvaluateRequests (this w) = [] ->
  rsp_type response = Some "paused" ->
  rsp_why response = Some {| why_type := "resumeLimit";
                             frameFinished := completionValue |} ->
  let r1 := stepOver w in
  let r2 := receiveResponse response (final r1) in
  (requests (trace r1)
   = [{| to := _name (this w); type := "resume"; resumeLimit := Some "next";
         expression := None; frame := None |}]
   /\ paused (this (final r1)) = false
   /\ desiredState (this (final r1)) = StepOver)
  /\ (paused (this (final r2)) = true
      /\ desiredState (this (final r2)) = Paused
      /\ doNext_entries (trace r2) = 1
      /\ emitted (trace r2) = [paused_event "resumeLimit"]
      /\ requests (trace r2) = []
      /\ completion r2 = Normal tt
      /\ final r2 = w).
Proof.
  destruct w as [[n d p ops pf q pe] k].
  destruct response as [from ty why src srcs frs err]; simpl.
  intros -> -> -> -> -> -> ->.
  unfold stepOver, resume_like, receiveResponse, paused_by, doNext, bind; simpl.
  repeat split; reflexivity.
Qed.

Lemma stepOver_then_resumeLimit_witness :
  emitted (trace (receiveResponse (paused_message "thread1" "resumeLimit" None)
                    (final (stepOver thread1))))
  = [paused_event "resumeLimit"].
Proof.
  apply (stepOver_then_resumeLimit thread1
           (paused_message "thread1" "resumeLimit" None) None);
    reflexivity.
Defined.

(** ** The end of an evaluation *)

Lemma doNext_resolves_nothing (w : World) : resolutions (trace (doNext w)) = [].
Proof.
  destruct w as [[n d p ops pf q pe] k].
  unfold doNext, bind; simpl.
  destruct (ops >? 0)%Z, p, pe, q, d; try reflexivity.
  all: simpl; rewrite forEach_tell; simpl.
  all: match goal with |- context [map _ ?l] => induction l; simpl; auto end.
Qed.

Lemma doNext_entered_once (w : World) : doNext_entries (trace (doNext w)) = 1.
Proof.
  destruct w as [[n d p ops pf q pe] k].
  unfold doNext, bind; simpl.
  destruct (ops >? 0)%Z, p, pe, q, d; try reflexivity.
  all: simpl; rewrite forEach_tell; simpl.
  all: match goal with |- context [map _ ?l] => induction l; simpl; auto end.
Qed.

Lemma resolutions_app (t1 t2 : list Effect) :
  resolutions (t1 ++ t2) = resolutions t1 ++ resolutions t2.
Proof. apply flat_map_app. Qed.

Lemma doNext_entries_app (t1 t2 : list Effect) :
  doNext_entries (t1 ++ t2) = doNext_entries t1 + doNext_entries t2.
Proof. unfold doNext_entries. now rewrite filter_app, length_app. Qed.

Section Evaluated.

#[local] Arguments doNext : simpl never.
#[local] Opaque doNext.

Lemma clientEvaluated_with_active_request (response : Response) (w : World)
    (t : string) (completionValue : CompletionValue) (req : PendingRequest) :
  rsp_type response = Some "paused" ->
  rsp_why response = Some {| why_type := t;
                             frameFinished := Some completionValue |} ->
  t = "clientEvaluated" ->
  pendingEvaluateRequest (this w) = Some req ->
  let r := receiveResponse response w in
  completion r = Normal tt
  /\ resolutions (trace r) = [(resolve req, VGrip (return_ completionValue))]
  /\ doNext_entries (trace r) = 1.
Proof.
  destruct w as [[n d p ops pf q pe] k].
  destruct response as [from ty why src srcs frs err]; simpl.
  intros -> -> -> ->.
  unfold receiveResponse, bind; simpl.
  match goal with |- context [doNext ?w0] =>
    rewrite (doNext_eta w0);
    pose proof (doNext_resolves_nothing w0) as Hres;
    pose proof (doNext_entered_once w0) as Hent;
    simpl; destruct (paused (this (final (doNext w0)))); simpl
  end.
  all: repeat split; try reflexivity.
  all: try match goal with
       | |- context [?a :: ?b :: ?c :: trace ?r ++ ?e] =>
           change (a :: b :: c :: trace r ++ e) with ([a; b; c] ++ trace r ++ e)
       end.
  all: rewrite ?resolutions_app, ?doNext_entries_app, ?Hres, ?Hent;
    reflexivity.
Qed.

End Evaluated.

(** C9: handling a 'paused' message with reason 'clientEvaluated'.  Without
    an active evaluate request the handler sets [paused] and then fails with
    a TypeError, reading [resolve] from the null [pendingEvaluateRequest];
    nothing is resolved, [doNext] is not entered and no event is emitted.
    With an active evaluate request that failure cannot happen, and the
    handler returns normally, having resolved the request, when the message
    carries the completion value. *)
Theorem clientEvaluated_needs_active_request (response : Response) (w : World)
    (why : ThreadPausedReason) :
  rsp_type response = Some "paused" ->
  rsp_why response = Some why ->
  why_type why = "clientEvaluated" ->
  let r := receiveResponse response w in
  (pendingEvaluateRequest (this w) = None ->
   completion r = Throw (NullDeref "this.pendingEvaluateRequest")
   /\ final r = {| this := set_paused true (this w); promises := promises w |}
   /\ invoked (trace r) = []
   /\ doNext_entries (trace r) = 0
   /\ emitted (trace r) = [])
  /\ (forall req, pendingEvaluateRequest (this w) = Some req ->
      completion r <> Throw (NullDeref "this.pendingEvaluateRequest")
      /\ (forall completionValue,
            frameFinished why = Some completionValue ->
            completion r = Normal tt
            /\ resolutions (trace r)
               = [(resolve req, VGrip (return_ completionValue))]
            /\ doNext_entries (trace r) = 1)).
Proof.
  intros Hty Hwhy Ht. cbv zeta. split.
  - destruct w as [[n d p ops pf q pe] k].
    destruct response as [from ty why' src srcs frs err].
    destruct why as [t ff]. simpl in *. subst. intros ->.
    unfold receiveResponse, bind; simpl. repeat split; reflexivity.
  - intros req Hreq. destruct why as [t [cv|]]; simpl in Ht.
    + destruct (clientEvaluated_with_active_request response w t cv req
                  Hty Hwhy Ht Hreq) as (Hc & Hr & He).
      split; [rewrite Hc; discriminate|].
      intros cv' [= <-]. repeat split; assumption.
    + split; [|discriminate].
      destruct w as [[n d p ops pf q pe] k].
      destruct response as [from ty why' src srcs frs err].
      simpl in *. subst.
      unfold receiveResponse, bind; simpl. discriminate.
Qed.

Lemma clientEvaluated_needs_active_request_witness :
  completion (receiveResponse (clientEvaluated "thread1" "2") thread1)
  = Throw (NullDeref "this.pendingEvaluateRequest").
Proof.
  apply (clientEvaluated_needs_active_request
           (clientEvaluated "thread1" "2") thread1
           {| why_type := "clientEvaluated";
              frameFinished := Some {| return_ := "2" |} |});
    reflexivity.
Defined.

(** ** The rejecting branch of doNext is not reached *)

Lemma forallb_true {A} (l : list A) : forallb (fun _ => true) l = true.
Proof. induction l; simpl; auto. Qed.

Lemma forallb_map {A B} (f : A -> B) (g : B -> bool) (l : list A) :
  forallb g (map f l) = forallb (fun x => g (f x)) l.
Proof. induction l as [|x l IH]; simpl; [reflexivity|]. now rewrite IH. Qed.

Lemma doNext_queue_is_served (w : World) :
  queue_is_served w = true ->
  queue_is_served (final (doNext w)) = true
  /\ no_running_rejection (trace (doNext w)) = true.
Proof.
  destruct w as [[n d p ops pf q pe] k].
  unfold queue_is_served, doNext, bind; simpl.
  destruct (ops >? 0)%Z, p, pe, q, d; simpl; intros H;
    try discriminate; split; reflexivity.
Qed.

Section Served.

#[local] Arguments doNext : simpl never.
#[local] Opaque doNext.
#[local] Arguments queue_is_served : simpl never.
#[local] Arguments no_running_rejection : simpl never.

Ltac served_doNext :=
  match goal with
  | |- context [match doNext ?w0 with _ => _ end] =>
      let H := fresh "H" in
      let Hs := fresh "Hs" in
      let Hq := fresh "Hq" in
      assert (H : queue_is_served w0 = true);
      [ | destruct (doNext_queue_is_served w0 H) as [Hs Hq];
          rewrite (doNext_eta w0); simpl ]
  end.

Ltac served_state :=
  unfold queue_is_served in *; simpl in *;
  repeat match goal with
         | b : bool |- _ => destruct b
         | o : option PendingRequest |- _ => destruct o
         end;
  try match goal with
      | l : list QueuedRequest |- _ => destruct l
      end;
  simpl in *; try discriminate; auto.

Ltac served_final :=
  first [ assumption
        | unfold queue_is_served in *; simpl in *; solve [auto] ].

Ltac quiet_trace :=
  unfold no_running_rejection in *; simpl;
  repeat (rewrite forallb_app; simpl);
  repeat match goal with
         | Hq : forallb _ (trace (doNext ?w0)) = true |- _ => rewrite Hq; clear Hq
         end;
  simpl; rewrite ?forallb_map; simpl; rewrite ?forallb_true; reflexivity.

Lemma receiveResponse_queue_is_served (response : Response) (w : World) :
  queue_is_served w = true ->
  queue_is_served (final (receiveResponse response w)) = true
  /\ no_running_rejection (trace (receiveResponse response w)) = true.
Proof.
  destruct w as [[n d p ops pf q pe] k].
  destruct response as [from ty why src srcs frs err].
  intros H.
  unfold receiveResponse, type_is, error_is, paused_by, deref,
    PendingRequests.resolveOne, PendingRequests.rejectAll, bind.
  repeat (simpl; try rewrite forEach_tell;
          first [ served_doNext; [reflexivity|] | break_match ]);
    simpl; try rewrite forEach_tell; simpl.
  all: split; [served_final | quiet_trace].
Qed.

Lemma perform_queue_is_served (c : Call) (w : World) :
  queue_is_served w = true ->
  queue_is_served (final (perform c w)) = true
  /\ no_running_rejection (trace (perform c w)) = true.
Proof.
  destruct c; try apply receiveResponse_queue_is_served.
  all: destruct w as [[n d p ops pf q pe] k]; intros H; cbn [perform].
  - unfold interrupt, sendPauseRequest, bind; simpl.
    destruct p; simpl; split; reflexivity.
  - unfold resume, resume_like, bind; simpl.
    destruct d; simpl; try (split; [exact H|reflexivity]).
    served_doNext; [served_state|]. split; [served_final | quiet_trace].
  - unfold stepOver, resume_like, bind; simpl.
    destruct d; simpl; try (split; [exact H|reflexivity]).
    served_doNext; [served_state|]. split; [served_final | quiet_trace].
  - unfold stepInto, resume_like, bind; simpl.
    destruct d; simpl; try (split; [exact H|reflexivity]).
    served_doNext; [served_state|]. split; [served_final | quiet_trace].
  - unfold stepOut, resume_like, bind; simpl.
    destruct d; simpl; try (split; [exact H|reflexivity]).
    served_doNext; [served_state|]. split; [served_final | quiet_trace].
  - unfold fetchStackFrames, Promise_reject, newPromise,
      PendingRequests.enqueue, try_catch, bind; simpl.
    destruct d, p; simpl; split; solve [served_final | reflexivity].
  - unfold evaluate, Promise_reject, newPromise, try_catch, bind; simpl.
    destruct d; simpl; try (split; [served_final | reflexivity]).
    served_doNext; [served_state|]. split; [served_final | quiet_trace].
  - unfold operationFinishedOnPausedThread, bind; simpl.
    served_doNext; [served_final|]. split; [served_final | quiet_trace].
Qed.

End Served.

Lemma no_running_rejection_app (t1 t2 : list Effect) :
  no_running_rejection (t1 ++ t2)
  = no_running_rejection t1 && no_running_rejection t2.
Proof. apply forallb_app. Qed.

Lemma exec_all_queue_is_served (l : list Action) :
  Forall (fun a => forall w, queue_is_served w = true ->
                             queue_is_served (final (exec a w)) = true
                             /\ no_running_rejection (trace (exec a w)) = true) l ->
  forall w, queue_is_served w = true ->
            queue_is_served (final (exec_all l w)) = true
            /\ no_running_rejection (trace (exec_all l w)) = true.
Proof.
  induction 1 as [|a l Ha _ IH]; intros w Hw; [split; [exact Hw|reflexivity]|].
  cbn [exec_all]. unfold bind.
  destruct (Ha w Hw) as [Hs Hq]. destruct (exec a w) as [w1 t1 [[]|e]]; simpl in *.
  - destruct (IH w1 Hs) as [Hs' Hq']. destruct (exec_all l w1); simpl in *.
    rewrite no_running_rejection_app, Hq, Hq'. split; [exact Hs'|reflexivity].
  - split; assumption.
Qed.

Lemma runOnPausedThread_queue_is_served
    (operation : M unit -> M Value) (w : World) :
  (forall finished w', queue_is_served w' = true ->
       queue_is_served (final (operation finished w')) = true
       /\ no_running_rejection (trace (operation finished w')) = true) ->
  queue_is_served w = true ->
  queue_is_served (final (runOnPausedThread operation w)) = true
  /\ no_running_rejection (trace (runOnPausedThread operation w)) = true.
Proof.
  intros Hop. destruct w as [[n d p ops pf q pe] k]. intros Hw.
  unfold runOnPausedThread, newPromise, try_catch, sendPauseRequest, bind; simpl.
  destruct p; simpl.
  - match goal with |- context [operation ?f ?w'] =>
      destruct (Hop f w' Hw) as [Hs Hq]; destruct (operation f w') as [w1 t1 [v|e]]
    end; simpl in *.
    + split; [exact Hs|].
      change (Log ?l ?m :: ?t) with ([Log l m] ++ t).
      rewrite !no_running_rejection_app, Hq. reflexivity.
    + split; [exact Hs|].
      change (Log ?l ?m :: ?t) with ([Log l m] ++ t).
      rewrite !no_running_rejection_app, Hq. reflexivity.
  - match goal with |- context [operation ?f ?w'] =>
      destruct (Hop f w' eq_refl) as [Hs Hq]; destruct (operation f w') as [w1 t1 [v|e]]
    end; simpl in *.
    + split; [exact Hs|].
      change (Log ?l ?m :: Log ?l' ?m' :: SendRequest ?r :: ?t)
        with ([Log l m; Log l' m'; SendRequest r] ++ t).
      rewrite !no_running_rejection_app, Hq. reflexivity.
    + split; [exact Hs|].
      change (Log ?l ?m :: Log ?l' ?m' :: SendRequest ?r :: ?t)
        with ([Log l m; Log l' m'; SendRequest r] ++ t).
      rewrite !no_running_rejection_app, Hq. reflexivity.
Qed.

Lemma bind_ret_final_trace {A B} (m : M A) (b : B) (w : World) :
  final ((m ;; ret b) w) = final (m w)
  /\ trace ((m ;; ret b) w) = trace (m w).
Proof.
  unfold bind. destruct (m w) as [w1 t1 [a|e]]; simpl; rewrite ?app_nil_r; auto.
Qed.

Lemma exec_queue_is_served (a : Action) :
  forall w, queue_is_served w = true ->
            queue_is_served (final (exec a w)) = true
            /\ no_running_rejection (trace (exec a w)) = true.
Proof.
  induction a as [c|operation IH] using Action_ind; intros w Hw.
  - apply perform_queue_is_served, Hw.
  - rewrite exec_RunOnPausedThread.
    destruct (bind_ret_final_trace
                (runOnPausedThread (fun _ => exec_all operation ;; ret VUndefined))
                tt w) as [-> ->].
    apply runOnPausedThread_queue_is_served; [|exact Hw].
    intros _ w' Hw'.
    destruct (bind_ret_final_trace (exec_all operation) VUndefined w') as [-> ->].
    apply exec_all_queue_is_served; assumption.
Qed.

(** From the constructed object on, no call and no message ever takes
    [doNext] into the branch that rejects queued evaluate requests: no
    reachable object has a queued evaluate request while the thread runs with
    none active, and no turn rejects a continuation with
    'Thread is running'. *)
Lemma rejecting_branch_unreachable (w : World) :
  reachable w ->
  queue_is_served w = true
  /\ forall a, no_running_rejection (trace (exec a w)) = true.
Proof.
  intros Hr.
  assert (Hs : queue_is_served w = true).
  { induction Hr as [n|w a _ IH]; [reflexivity|].
    apply exec_queue_is_served, IH. }
  split; [exact Hs|]. intros a. apply exec_queue_is_served, Hs.
Qed.

(** * Further properties of the class *)

(** ** What doNext leaves alone *)

Lemma requests_of_rejects {A} (f : A -> PromiseId) (r : Reason) (l : list A) :
  requests (map (fun x => Reject (f x) r) l) = [].
Proof. induction l as [|x l IH]; simpl; auto. Qed.

(** The fields [doNext] does not write. *)
Lemma doNext_frame (w : World) :
  completion (doNext w) = Normal tt
  /\ _name (this (final (doNext w))) = _name (this w)
  /\ desiredState (this (final (doNext w))) = desiredState (this w)
  /\ operationsRunningOnPausedThread (this (final (doNext w)))
     = operationsRunningOnPausedThread (this w)
  /\ pendingFrameRequests (this (final (doNext w))) = pendingFrameRequests (this w)
  /\ promises (final (doNext w)) = promises w.
Proof.
  destruct w as [[n d p ops pf q pe] k].
  unfold doNext, bind; simpl.
  destruct (ops >? 0)%Z, p, pe, q, d; simpl; try (repeat split; reflexivity).
  all: rewrite forEach_tell; repeat split; reflexivity.
Qed.

(** While an operation runs on the paused thread, [doNext] changes nothing,
    sends nothing and invokes no continuation. *)
Lemma doNext_while_operating (w : World) :
  (operationsRunningOnPausedThread (this w) > 0)%Z ->
  final (doNext w) = w
  /\ requests (trace (doNext w)) = []
  /\ invoked (trace (doNext w)) = [].
Proof.
  destruct w as [[n d p ops pf q pe] k]; simpl. intros Hops.
  unfold doNext, bind; simpl.
  destruct (Z.gtb_spec ops 0); [|lia].
  destruct p; simpl; repeat split; reflexivity.
Qed.

(** One run of [doNext] reconciles the object: a second run right after it
    sends no request and leaves the object as the first run left it. *)
Theorem doNext_settles (w : World) :
  final (doNext (final (doNext w))) = final (doNext w)
  /\ requests (trace (doNext (final (doNext w)))) = [].
Proof.
  destruct w as [[n d p ops pf q pe] k].
  unfold doNext, bind; simpl.
  destruct (ops >? 0)%Z eqn:Hops, p, pe, q, d; simpl;
    rewrite ?Hops; simpl; rewrite ?forEach_tell; simpl;
    rewrite ?Hops; simpl; rewrite ?forEach_tell; simpl;
    rewrite ?requests_of_rejects; split; reflexivity.
Qed.

(** [doNext] sends at most one request. *)
Lemma doNext_sends_at_most_one_request (w : World) :
  (List.length (requests (trace (doNext w))) <= 1)%nat.
Proof.
  destruct w as [[n d p ops pf q pe] k].
  unfold doNext, bind; simpl.
  destruct (ops >? 0)%Z, p, pe, q, d; simpl;
    rewrite ?forEach_tell; simpl; rewrite ?requests_of_rejects; simpl; lia.
Qed.

(** ** One request per call *)

(** What [runOnPausedThread] itself adds to the trace around its operation. *)
Lemma runOnPausedThread_trace (operation : M unit -> M Value) (w : World) :
  let r0 := operation operationFinishedOnPausedThread (enter_operation w) in
  trace (runOnPausedThread operation w)
  = (Log debug [Str "Starting operation on paused thread"]
     :: (if paused (this w) then []
         else [Log debug [Str "Sending pause request to thread "; Str (_name (this w))];
               SendRequest (request (_name (this w)) "interrupt")]))
    ++ trace r0
    ++ [match completion r0 with
        | Normal result => Resolve (ResultPromise (promises w)) result
        | Throw e => Reject (ResultPromise (promises w)) (Thrown e)
        end].
Proof.
  destruct w as [[n d p ops pf q pe] k].
  unfold runOnPausedThread, newPromise, try_catch, sendPauseRequest,
    enter_operation, bind; simpl.
  destruct p; unfold set_paused, set_operationsRunningOnPausedThread; simpl;
    match goal with |- context [operation ?f ?w'] =>
      destruct (operation f w') as [w1 t1 [v|e]]
    end; simpl; rewrite ?app_nil_r; reflexivity.
Qed.


Section OneRequest.

#[local] Arguments doNext : simpl never.
#[local] Opaque doNext.

Ltac bound_doNext :=
  match goal with
  | |- context [match doNext ?w0 with _ => _ end] =>
      let Hle := fresh "Hle" in
      pose proof (doNext_sends_at_most_one_request w0) as Hle;
      rewrite (doNext_eta w0); simpl
  end.

Ltac count_requests :=
  unfold requests in *; simpl; rewrite ?app_nil_r;
  rewrite ?filter_rejects by reflexivity;
  repeat (rewrite flat_map_app; simpl);
  rewrite ?length_app; simpl; lia.

Lemma receiveResponse_sends_at_most_one_request (response : Response) (w : World) :
  (List.length (requests (trace (receiveResponse response w))) <= 1)%nat.
Proof.
  destruct w as [[n d p ops pf q pe] k].
  destruct response as [from ty why src srcs frs err].
  unfold receiveResponse, type_is, error_is, paused_by, deref,
    PendingRequests.resolveOne, PendingRequests.rejectAll, bind.
  repeat (simpl; try rewrite forEach_tell; first [bound_doNext | break_match]);
    simpl; try rewrite forEach_tell; simpl.
  all: count_requests.
Qed.

(** Every call of a public method other than [runOnPausedThread], every
    completion callback and every message sends at most one request to the
    thread actor.  [runOnPausedThread] itself sends at most the one interrupt
    request, before its operation runs: the requests of the call are that
    interrupt, if the thread is not paused, followed by what the operation
    sends. *)
Theorem perform_sends_at_most_one_request (c : Call)
    (operation : M unit -> M Value) (w : World) :
  (List.length (requests (trace (perform c w))) <= 1)%nat
  /\ requests (trace (runOnPausedThread operation w))
     = (if paused (this w) then [] else [request (_name (this w)) "interrupt"])
       ++ requests (trace (operation operationFinishedOnPausedThread
                             (enter_operation w))).
Proof.
  split.
  2: { rewrite runOnPausedThread_trace. cbv zeta.
       unfold requests. rewrite !flat_map_app.
       destruct (completion _), (paused (this w)); simpl;
         rewrite app_nil_r; reflexivity. }
  destruct c; try apply receiveResponse_sends_at_most_one_request.
  all: destruct w as [[n d p ops pf q pe] k]; cbn [perform].
  - unfold interrupt, sendPauseRequest, bind; simpl. destruct p; simpl; lia.
  - unfold resume, resume_like, bind; simpl. destruct d; simpl; try lia.
    bound_doNext. count_requests.
  - unfold stepOver, resume_like, bind; simpl. destruct d; simpl; try lia.
    bound_doNext. count_requests.
  - unfold stepInto, resume_like, bind; simpl. destruct d; simpl; try lia.
    bound_doNext. count_requests.
  - unfold stepOut, resume_like, bind; simpl. destruct d; simpl; try lia.
    bound_doNext. count_requests.
  - unfold fetchStackFrames, Promise_reject, newPromise,
      PendingRequests.enqueue, try_catch, bind; simpl.
    destruct d, p; simpl; lia.
  - unfold evaluate, Promise_reject, newPromise, try_catch, bind; simpl.
    destruct d; simpl; try lia.
    bound_doNext. count_requests.
  - unfold operationFinishedOnPausedThread, bind; simpl.
    bound_doNext. count_requests.
Qed.

End OneRequest.

(** ** Operations on the paused thread come first *)

Section Operating.

#[local] Arguments doNext : simpl never.
#[local] Opaque doNext.

Ltac idle_doNext :=
  match goal with
  | |- context [match doNext ?w0 with _ => _ end] =>
      let H := fresh "H" in
      let Hf := fresh "Hf" in
      let Hr := fresh "Hr" in
      assert (H : (operationsRunningOnPausedThread (this w0) > 0)%Z)
        by (simpl; first [lia | apply Z.lt_gt, decrement_pos; lia]);
      destruct (doNext_while_operating w0 H) as (Hf & Hr & _);
      rewrite (doNext_eta w0), Hf; simpl
  end.

Ltac only_frames :=
  repeat split; simpl; try lia; try (apply Z.lt_gt, decrement_pos; lia);
  try reflexivity;
  unfold requests in *; simpl; rewrite ?app_nil_r;
  rewrite ?filter_rejects by reflexivity;
  repeat (rewrite flat_map_app; simpl);
  repeat match goal with
         | Hr : flat_map _ (trace (doNext _)) = [] |- _ => rewrite Hr; clear Hr
         end;
  reflexivity.

Lemma receiveResponse_while_operating (response : Response) (w : World) :
  (operationsRunningOnPausedThread (this w) > 0)%Z ->
  paused (this w) = true ->
  forallb is_frames_request (requests (trace (receiveResponse response w))) = true
  /\ paused (this (final (receiveResponse response w))) = true
  /\ operationsRunningOnPausedThread (this (final (receiveResponse response w)))
     = operationsRunningOnPausedThread (this w).
Proof.
  destruct w as [[n d p ops pf q pe] k].
  destruct response as [from ty why src srcs frs err].
  simpl. intros Hops ->.
  unfold receiveResponse, type_is, error_is, paused_by, deref,
    PendingRequests.resolveOne, PendingRequests.rejectAll, bind.
  repeat (simpl; try rewrite forEach_tell; first [idle_doNext | break_match]);
    simpl; try rewrite forEach_tell; simpl.
  all: only_frames.
Qed.

(** While an operation runs on the paused thread and the thread is taken to be
    paused, no call and no message makes the object resume the thread or
    start an evaluation: the only request that can go out is 'frames', and
    [paused] stays true.  (A completion callback counts only if it is not the
    last one outstanding.) *)
Theorem thread_stays_paused_while_operating (c : Call) (w : World) :
  (operationsRunningOnPausedThread (this w) > 0)%Z ->
  paused (this w) = true ->
  (c = call_finished -> (operationsRunningOnPausedThread (this w) > 1)%Z) ->
  forallb is_frames_request (requests (trace (perform c w))) = true
  /\ paused (this (final (perform c w))) = true
  /\ (operationsRunningOnPausedThread (this (final (perform c w))) > 0)%Z.
Proof.
  intros Hops Hp Hc.
  destruct c.
  9: { destruct (receiveResponse_while_operating response w Hops Hp)
         as (Hr & Hp' & Ho).
       cbn [perform]. rewrite Ho. repeat split; assumption. }
  all: destruct w as [[n d p ops pf q pe] k]; simpl in Hops, Hp, Hc; subst p;
    cbn [perform].
  - unfold interrupt, bind; simpl. only_frames.
  - unfold resume, resume_like, bind; simpl. destruct d; simpl; try only_frames.
    idle_doNext. only_frames.
  - unfold stepOver, resume_like, bind; simpl. destruct d; simpl; try only_frames.
    idle_doNext. only_frames.
  - unfold stepInto, resume_like, bind; simpl. destruct d; simpl; try only_frames.
    idle_doNext. only_frames.
  - unfold stepOut, resume_like, bind; simpl. destruct d; simpl; try only_frames.
    idle_doNext. only_frames.
  - unfold fetchStackFrames, Promise_reject, newPromise,
      PendingRequests.enqueue, try_catch, bind; simpl.
    destruct d; simpl; only_frames.
  - unfold evaluate, Promise_reject, newPromise, try_catch, bind; simpl.
    destruct d; simpl; try only_frames.
    idle_doNext. only_frames.
  - specialize (Hc eq_refl).
    unfold operationFinishedOnPausedThread, bind; simpl.
    idle_doNext. only_frames.
Qed.

End Operating.

Lemma thread_stays_paused_while_operating_witness :
  paused (this (final (perform call_resume operating_thread))) = true.
Proof.
  apply (thread_stays_paused_while_operating call_resume operating_thread).
  - vm_compute. reflexivity.
  - reflexivity.
  - discriminate.
Defined.

(** ** A temporary pause *)

(** On a running thread that is not wanted paused and evaluates nothing, an
    operation started with [runOnPausedThread] interrupts the thread; the
    'interrupted' message that confirms the pause is not passed on to the
    listeners; and when the operation calls its completion callback the
    thread is resumed, with the resumeLimit of the desired state.  The object
    is then as it was before. *)
Theorem temporary_pause_round_trip (w : World) :
  desiredState (this w) <> Paused ->
  paused (this w) = false ->
  operationsRunningOnPausedThread (this w) = 0%Z ->
  pendingEvaluateRequest (this w) = None ->
  queuedEvaluateRequests (this w) = [] ->
  let n := _name (this w) in
  let outcome :=
    run [RunOnPausedThread [];
         Do (deliver (paused_message n "interrupted" None));
         Do call_finished] w in
  requests (snd outcome)
  = [request n "interrupt"; resume_request n (limit_of (desiredState (this w)))]
  /\ emitted (snd outcome) = []
  /\ this (fst outcome) = this w
  /\ promises (fst outcome) = S (promises w).
Proof.
  destruct w as [[n d p ops pf q pe] k]; simpl.
  intros Hd -> -> -> ->.
  destruct d; try congruence; repeat split; reflexivity.
Qed.

Lemma temporary_pause_round_trip_witness :
  this (fst (run [RunOnPausedThread [];
                  Do (deliver (paused_message "thread1" "interrupted" None));
                  Do call_finished] running_thread))
  = this running_thread.
Proof.
  apply (temporary_pause_round_trip running_thread);
    solve [reflexivity | vm_compute; discriminate].
Defined.

(** ** A pause in the middle of an evaluation *)

(** When a 'paused' message with reason 'breakpoint' or 'resumeLimit' arrives
    while an evaluate request is active (and no operation runs on the paused
    thread), the listeners are told 'paused' and [desiredState] becomes
    'paused', but [doNext] resumes the thread at once so that the evaluation
    can go on: one plain resume request is sent, [paused] is false afterwards
    and the active request stays unresolved. *)
Theorem pause_during_evaluation_is_resumed (response : Response) (w : World)
    (t : string) (completionValue : option CompletionValue) (req : PendingRequest) :
  rsp_type response = Some "paused" ->
  rsp_why response = Some {| why_type := t; frameFinished := completionValue |} ->
  t = "breakpoint" \/ t = "resumeLimit" ->
  (operationsRunningOnPausedThread (this w) <= 0)%Z ->
  pendingEvaluateRequest (this w) = Some req ->
  let r := receiveResponse response w in
  requests (trace r) = [request (_name (this w)) "resume"]
  /\ emitted (trace r) = [paused_event t]
  /\ invoked (trace r) = []
  /\ this (final r) = set_desiredState Paused (set_paused false (this w)).
Proof.
  destruct w as [[n d p ops pf q pe] k].
  destruct response as [from ty why src srcs frs err]; simpl.
  intros -> -> Ht Hops ->.
  unfold receiveResponse, paused_by, doNext, bind, type_is; simpl.
  destruct Ht as [-> | ->]; simpl;
    (destruct (Z.gtb_spec ops 0); [lia|]); simpl; repeat split; reflexivity.
Qed.

Lemma pause_during_evaluation_is_resumed_witness :
  requests (trace (receiveResponse (paused_message "thread1" "breakpoint" None)
                     evaluating_thread))
  = [request "thread1" "resume"].
Proof.
  apply (pause_during_evaluation_is_resumed
           (paused_message "thread1" "breakpoint" None) evaluating_thread
           "breakpoint" None {| resolve := GripPromise 2; reject := GripPromise 2 |});
    solve [reflexivity | left; reflexivity | vm_compute; discriminate].
Defined.

(** ** The 'paused' event after an evaluation *)

(** When the end of the active evaluation is reported, the listeners are told
    'paused' exactly if the thread is still paused after [doNext], and that is
    the case exactly if an operation runs on the paused thread, or no further
    evaluate request is queued and the thread is wanted paused. *)
Theorem clientEvaluated_paused_event (response : Response) (w : World)
    (completionValue : CompletionValue) (req : PendingRequest) :
  rsp_type response = Some "paused" ->
  rsp_why response = Some {| why_type := "clientEvaluated";
                             frameFinished := Some completionValue |} ->
  pendingEvaluateRequest (this w) = Some req ->
  let r := receiveResponse response w in
  emitted (trace r)
  = (if paused (this (final r)) then [paused_event "clientEvaluated"] else [])
  /\ paused (this (final r))
     = ((operationsRunningOnPausedThread (this w) >? 0)%Z
        || (match queuedEvaluateRequests (this w) with [] => true | _ => false end
            && is_paused_state (desiredState (this w)))).
Proof.
  destruct w as [[n d p ops pf q pe] k].
  destruct response as [from ty why src srcs frs err]; simpl.
  intros -> -> ->.
  unfold receiveResponse, doNext, bind, type_is; simpl.
  destruct (ops >? 0)%Z, q, d; simpl; split; reflexivity.
Qed.

Lemma clientEvaluated_paused_event_witness :
  emitted (trace (receiveResponse (clientEvaluated "thread1" "2") evaluating_thread))
  = [].
Proof.
  apply (clientEvaluated_paused_event (clientEvaluated "thread1" "2")
           evaluating_thread {| return_ := "2" |}
           {| resolve := GripPromise 2; reject := GripPromise 2 |});
    reflexivity.
Defined.

(** ** Messages that change nothing *)

(** An informational message ('resumed', 'newSource', a sources listing,
    'detached', the 'wrongState' error, 'newGlobal', anything unknown) leaves
    the object as it is: nothing is sent, [doNext] is not entered and no
    continuation is invoked.  In particular a 'wrongState' error rejects no
    outstanding request, and a message that carries sources is taken as a
    sources listing even if its type is 'exited' or it also carries frames. *)
Theorem informational_message_changes_nothing (response : Response) (w : World) :
  is_informational response = true ->
  let r := receiveResponse response w in
  final r = w
  /\ requests (trace r) = []
  /\ invoked (trace r) = []
  /\ doNext_entries (trace r) = 0.
Proof.
  destruct w as [[n d p ops pf q pe] k].
  destruct response as [from ty why src srcs frs err].
  unfold is_informational, receiveResponse, type_is, error_is, deref, bind; simpl.
  destruct (match ty with Some t' => t' =? "paused" | None => false end);
    [discriminate|].
  destruct (match ty with Some t' => t' =? "resumed" | None => false end);
    [intros _; repeat split; reflexivity|].
  destruct (match ty with Some t' => t' =? "newSource" | None => false end);
    [intros _; destruct src; repeat split; reflexivity|].
  destruct srcs; [intros _; repeat split; reflexivity|].
  destruct frs; [discriminate|].
  destruct (match ty with Some t' => t' =? "detached" | None => false end);
    [intros _; repeat split; reflexivity|].
  destruct (match ty with Some t' => t' =? "exited" | None => false end);
    [discriminate|].
  intros _.
  destruct (match err with Some e' => e' =? "wrongState" | None => false end);
    [repeat split; reflexivity|].
  destruct (match ty with Some t' => t' =? "newGlobal" | None => false end);
    repeat split; reflexivity.
Qed.

Lemma informational_message_changes_nothing_witness :
  final (receiveResponse (wrongState "thread1") two_frame_requests)
  = two_frame_requests.
Proof.
  apply (informational_message_changes_nothing (wrongState "thread1")
           two_frame_requests).
  reflexivity.
Defined.

(** A 'paused' message whose reason is none of 'interrupted', 'resumeLimit',
    'breakpoint' and 'clientEvaluated' (an 'attached', a debugger statement,
    an exception, ...) is not acted upon: the object, and with it [paused], is
    as before, nothing is sent and no 'paused' event is emitted. *)
Theorem unhandled_pause_reason (response : Response) (w : World)
    (why : ThreadPausedReason) :
  rsp_type response = Some "paused" ->
  rsp_why response = Some why ->
  why_type why <> "interrupted" ->
  why_type why <> "resumeLimit" ->
  why_type why <> "breakpoint" ->
  why_type why <> "clientEvaluated" ->
  let r := receiveResponse response w in
  final r = w
  /\ completion r = Normal tt
  /\ requests (trace r) = []
  /\ emitted (trace r) = []
  /\ invoked (trace r) = []
  /\ doNext_entries (trace r) = 0.
Proof.
  destruct w as [[n d p ops pf q pe] k].
  destruct response as [from ty why' src srcs frs err]; simpl.
  intros -> -> H1 H2 H3 H4.
  apply String.eqb_neq in H1, H2, H3, H4.
  unfold receiveResponse, type_is, deref, bind; simpl.
  rewrite H1, H2, H3, H4.
  destruct (why_type why =? "attached"); simpl; [repeat split; reflexivity|].
  destruct (_ || _); simpl; repeat split; reflexivity.
Qed.

Lemma unhandled_pause_reason_witness :
  final (receiveResponse (paused_message "thread1" "debuggerStatement" None)
           running_thread)
  = running_thread.
Proof.
  apply (unhandled_pause_reason
           (paused_message "thread1" "debuggerStatement" None) running_thread
           {| why_type := "debuggerStatement"; frameFinished := None |});
    solve [reflexivity | discriminate].
Defined.

(** ** Calls on a thread that is not wanted paused *)

(** Unless [desiredState] is 'paused', [resume()], the three step methods,
    [fetchStackFrames()] and [evaluate()] do nothing to the object: nothing is
    sent, nothing is queued, [doNext] is not entered.  The step and resume
    methods only log a warning; the other two return a promise that is
    already rejected with 'not paused'. *)
Theorem refused_unless_wanted_paused (c : Call) (w : World) :
  desiredState (this w) <> Paused ->
  needs_desired_paused c = true ->
  let r := perform c w in
  this (final r) = this w
  /\ completion r = Normal tt
  /\ requests (trace r) = []
  /\ resolutions (trace r) = []
  /\ doNext_entries (trace r) = 0
  /\ rejections (trace r)
     = match c with
       | call_fetchStackFrames => [(FramesPromise (promises w), Msg "not paused")]
       | call_evaluate _ _ => [(GripPromise (promises w), Msg "not paused")]
       | _ => []
       end.
Proof.
  destruct w as [[n d p ops pf q pe] k]; simpl. intros Hd Hc.
  destruct c; try discriminate; cbn [perform];
    unfold resume, stepOver, stepInto, stepOut, resume_like, fetchStackFrames,
      evaluate, Promise_reject, newPromise, try_catch, bind; simpl;
    destruct d; try congruence; simpl; repeat split; reflexivity.
Qed.

Lemma refused_unless_wanted_paused_witness :
  rejections (trace (perform (call_evaluate "1+1" "frame1") running_thread))
  = [(GripPromise 0, Msg "not paused")].
Proof.
  apply (refused_unless_wanted_paused (call_evaluate "1+1" "frame1") running_thread).
  - vm_compute. discriminate.
  - reflexivity.
Defined.

(** ** The operation counter *)

Section Counter.

#[local] Arguments doNext : simpl never.
#[local] Opaque doNext.

Ltac frame_doNext :=
  match goal with
  | |- context [match doNext ?w0 with _ => _ end] =>
      let Ho := fresh "Ho" in
      destruct (doNext_frame w0) as (_ & _ & _ & Ho & _);
      rewrite (doNext_eta w0); simpl
  end.

Ltac same_counter :=
  simpl;
  repeat match goal with
         | Ho : operationsRunningOnPausedThread (this (final (doNext _))) = _
           |- _ => rewrite Ho; clear Ho
         end;
  reflexivity.

Lemma receiveResponse_operation_counter (response : Response) (w : World) :
  operationsRunningOnPausedThread (this (final (receiveResponse response w)))
  = operationsRunningOnPausedThread (this w).
Proof.
  destruct w as [[n d p ops pf q pe] k].
  destruct response as [from ty why src srcs frs err].
  unfold receiveResponse, type_is, error_is, paused_by, deref,
    PendingRequests.resolveOne, PendingRequests.rejectAll, bind.
  repeat (simpl; try rewrite forEach_tell; first [frame_doNext | break_match]);
    simpl; try rewrite forEach_tell; simpl.
  all: same_counter.
Qed.

(** Only the completion callback, by [--], and [runOnPausedThread], by [++],
    change [operationsRunningOnPausedThread]; no other call and no message
    does.  While the counter is below 2^53 in magnitude they subtract and add
    exactly one, with no floor at zero: the counter can become negative.  At
    2^53 [++], and at -2^53 [--], leave the counter as it is. *)
Theorem operation_counter (c : Call) (w : World) :
  operationsRunningOnPausedThread (this (final (perform c w)))
  = match c with
    | call_finished => decrement (operationsRunningOnPausedThread (this w))
    | _ => operationsRunningOnPausedThread (this w)
    end
  /\ operationsRunningOnPausedThread (this (final (exec (RunOnPausedThread []) w)))
     = increment (operationsRunningOnPausedThread (this w))
  /\ (forall n, (- two53 < n < two53)%Z ->
                increment n = (n + 1)%Z /\ decrement n = (n - 1)%Z)
  /\ increment two53 = two53
  /\ decrement (- two53) = (- two53)%Z.
Proof.
  split; [|split; [|split; [|split; vm_compute; reflexivity]]].
  3: { intros n Hn. unfold increment, decrement.
       split; apply roundNumber_safe; lia. }
  2: { destruct w as [[n d p ops pf q pe] k].
       unfold exec, runOnPausedThread, newPromise, try_catch, sendPauseRequest,
         bind; simpl.
       destruct p; reflexivity. }
  destruct c; try apply receiveResponse_operation_counter.
  all: destruct w as [[n d p ops pf q pe] k]; cbn [perform].
  - unfold interrupt, sendPauseRequest, bind; simpl. destruct p; reflexivity.
  - unfold resume, resume_like, bind; simpl. destruct d; try reflexivity; simpl.
    frame_doNext. same_counter.
  - unfold stepOver, resume_like, bind; simpl. destruct d; try reflexivity; simpl.
    frame_doNext. same_counter.
  - unfold stepInto, resume_like, bind; simpl. destruct d; try reflexivity; simpl.
    frame_doNext. same_counter.
  - unfold stepOut, resume_like, bind; simpl. destruct d; try reflexivity; simpl.
    frame_doNext. same_counter.
  - unfold fetchStackFrames, Promise_reject, newPromise,
      PendingRequests.enqueue, try_catch, bind; simpl.
    destruct d, p; reflexivity.
  - unfold evaluate, Promise_reject, newPromise, try_catch, bind; simpl.
    destruct d; try reflexivity; simpl.
    frame_doNext. same_counter.
  - unfold operationFinishedOnPausedThread, bind; simpl.
    frame_doNext. same_counter.
Qed.

End Counter.

Lemma operation_counter_witness :
  increment 0 = 1%Z /\ decrement 0 = (-1)%Z.
Proof.
  apply (operation_counter call_interrupt thread1).
  unfold two53. lia.
Defined.

(** ** Evaluate requests wait for the operations on the paused thread *)

Lemma evaluate_while_operating (calls : list (string * string)) :
  forall w,
    desiredState (this w) = Paused ->
    (operationsRunningOnPausedThread (this w) > 0)%Z ->
    fst (run (evaluate_calls calls) w)
    = {| this := set_queuedEvaluateRequests
                   (queuedEvaluateRequests (this w)
                      ++ map queued_request
                           (submissions (_name (this w)) (promises w)
                              (evaluate_steps calls)))
                   (this w);
         promises := promises w + List.length calls |}
    /\ requests (snd (run (evaluate_calls calls) w)) = []
    /\ invoked (snd (run (evaluate_calls calls) w)) = [].
Proof.
  induction calls as [|[e f] calls IH]; intros w Hd Hops.
  - simpl. rewrite app_nil_r, Nat.add_0_r.
    destruct w as [[] ?]; repeat split; reflexivity.
  - cbn [evaluate_calls evaluate_steps map fst snd submissions].
    fold (evaluate_calls calls). fold (evaluate_steps calls).
    rewrite run_cons. cbn [fst snd].
    assert (Hstep :
      final (exec (Do (call_evaluate e f)) w)
      = {| this := set_queuedEvaluateRequests
                     (queuedEvaluateRequests (this w)
                        ++ [queued_request
                              (clientEvaluate_request (_name (this w)) e f,
                               GripPromise (promises w))])
                     (this w);
           promises := S (promises w) |}
      /\ requests (trace (exec (Do (call_evaluate e f)) w)) = []
      /\ invoked (trace (exec (Do (call_evaluate e f)) w)) = []).
    { destruct w as [[n d p ops pf q pe] k]; simpl in Hd, Hops. subst d.
      unfold exec, perform, evaluate, newPromise, try_catch, doNext, bind; simpl.
      destruct (Z.gtb_spec ops 0); [|lia].
      destruct p; simpl; repeat split; reflexivity. }
    destruct Hstep as (Hw & Hr & Hi). rewrite Hw.
    match goal with |- context [run _ ?w1] =>
      destruct (IH w1) as (IHw & IHr & IHi);
        [destruct w as [[] ?]; exact Hd | destruct w as [[] ?]; exact Hops |]
    end.
    rewrite IHw. unfold requests, invoked in *.
    rewrite !flat_map_app, Hr, Hi, IHr, IHi.
    destruct w as [[n d p ops pf q pe] k]; simpl.
    rewrite <- app_assoc. repeat split. f_equal. lia.
Qed.

(** Evaluate requests made while the last operation still runs on the paused
    thread are queued and nothing is sent for them; when that operation calls
    its completion callback, the oldest of them becomes the active request and
    its clientEvaluate request is sent, the others stay queued in order. *)
Theorem evaluate_waits_for_operation (w : World) (e f : string)
    (calls : list (string * string)) :
  desiredState (this w) = Paused ->
  paused (this w) = true ->
  operationsRunningOnPausedThread (this w) = 1%Z ->
  pendingEvaluateRequest (this w) = None ->
  queuedEvaluateRequests (this w) = [] ->
  let n := _name (this w) in
  let before := run (evaluate_calls ((e, f) :: calls)) w in
  let after := exec (Do call_finished) (fst before) in
  requests (snd before) = []
  /\ invoked (snd before) = []
  /\ requests (trace after) = [clientEvaluate_request n e f]
  /\ pendingEvaluateRequest (this (final after))
     = Some {| resolve := GripPromise (promises w);
               reject := GripPromise (promises w) |}
  /\ queuedEvaluateRequests (this (final after))
     = map queued_request (submissions n (S (promises w)) (evaluate_steps calls))
  /\ paused (this (final after)) = false.
Proof.
  intros Hd Hp Hops Hpe Hq. cbv zeta.
  destruct (evaluate_while_operating ((e, f) :: calls) w Hd) as (Hw & Hr & Hi);
    [lia|].
  rewrite Hw, Hr, Hi.
  destruct w as [[n d p ops pf q pe] k]; simpl in *. subst.
  repeat split.
Qed.

Lemma evaluate_waits_for_operation_witness :
  requests (trace (exec (Do call_finished)
                     (fst (run (evaluate_calls [("1+1", "frame1"); ("2+2", "frame1")])
                             operating_thread))))
  = [clientEvaluate_request "thread1" "1+1" "frame1"].
Proof.
  apply (evaluate_waits_for_operation operating_thread "1+1" "frame1"
           [("2+2", "frame1")]);
    reflexivity.
Defined.

(** ** Lifting an invariant to all actions *)

(** [runOnPausedThread] ends in the state in which its operation ends, and the
    operation starts on the object with the operation counted, the promise
    allocated and the thread paused. *)
Lemma runOnPausedThread_final (operation : M unit -> M Value) (w : World) :
  final (runOnPausedThread operation w)
  = final (operation operationFinishedOnPausedThread (enter_operation w)).
Proof.
  destruct w as [[n d p ops pf q pe] k].
  unfold runOnPausedThread, newPromise, try_catch, sendPauseRequest,
    enter_operation, bind; simpl.
  destruct p; unfold set_paused, set_operationsRunningOnPausedThread; simpl;
    match goal with |- context [operation ?f ?w'] =>
      destruct (operation f w') as [w1 t1 [v|e]]
    end; reflexivity.
Qed.

Section Lifting.

Variable I : World -> Prop.
Hypothesis perform_keeps : forall c w, I w -> I (final (perform c w)).
Hypothesis enter_operation_keeps : forall w, I w -> I (enter_operation w).

Lemma exec_all_keeps (l : list Action) :
  Forall (fun a => forall w, I w -> I (final (exec a w))) l ->
  forall w, I w -> I (final (exec_all l w)).
Proof.
  induction 1 as [|a l Ha _ IH]; intros w Hw; [exact Hw|].
  cbn [exec_all]. unfold bind.
  specialize (Ha w Hw). destruct (exec a w) as [w1 t1 [[]|e]]; simpl in *.
  - specialize (IH w1 Ha). destruct (exec_all l w1); exact IH.
  - exact Ha.
Qed.

Lemma exec_keeps (a : Action) : forall w, I w -> I (final (exec a w)).
Proof.
  induction a as [c|operation IH] using Action_ind; intros w Hw.
  - apply perform_keeps, Hw.
  - rewrite exec_RunOnPausedThread.
    destruct (bind_ret_final_trace
                (runOnPausedThread (fun _ => exec_all operation ;; ret VUndefined))
                tt w) as [-> _].
    rewrite runOnPausedThread_final.
    destruct (bind_ret_final_trace (exec_all operation) VUndefined
                (enter_operation w)) as [-> _].
    apply exec_all_keeps; [exact IH|]. apply enter_operation_keeps, Hw.
Qed.

Lemma reachable_keeps :
  (forall n, I (final (constructor n))) ->
  forall w, reachable w -> I w.
Proof.
  intros Hinit w Hr. induction Hr as [n|w a _ IH]; [apply Hinit|].
  apply exec_keeps, IH.
Qed.

End Lifting.

Lemma reachable_run (l : list Action) :
  forall w, reachable w -> reachable (fst (run l w)).
Proof.
  induction l as [|a l IH]; intros w Hw; [exact Hw|].
  rewrite run_cons. cbn [fst]. apply IH. apply (reachable_turn w a Hw).
Qed.

(** ** The evaluate requests held by the object *)

(** [doNext] only moves the oldest queued request into
    [pendingEvaluateRequest]: it neither drops nor duplicates a request. *)
Lemma doNext_evaluate_promises (w : World) :
  evaluate_promises (this (final (doNext w))) = evaluate_promises (this w).
Proof.
  destruct w as [[n d p ops pf q pe] k].
  unfold doNext, bind; simpl.
  destruct (ops >? 0)%Z, p, pe, q, d; simpl; rewrite ?forEach_tell; reflexivity.
Qed.

Section HeldRequests.

#[local] Arguments doNext : simpl never.
#[local] Opaque doNext.
#[local] Arguments evaluate_promises : simpl never.

Ltac held_doNext :=
  match goal with
  | |- context [match doNext ?w0 with _ => _ end] =>
      let Hk := fresh "Hk" in
      let He := fresh "He" in
      destruct (doNext_frame w0) as (_ & _ & _ & _ & _ & Hk);
      pose proof (doNext_evaluate_promises w0) as He;
      rewrite (doNext_eta w0); simpl
  end.

Ltac held_case :=
  simpl;
  repeat match goal with
         | He : evaluate_promises (this (final (doNext _))) = _ |- _ =>
             rewrite He; clear He
         | Hk : promises (final (doNext _)) = _ |- _ => rewrite Hk; clear Hk
         end;
  simpl; split; [lia|];
  first [ left; reflexivity
        | right; right; reflexivity
        | right; left; split; [|lia];
          unfold evaluate_promises; simpl; rewrite map_app, app_assoc;
          reflexivity ].

(** A call or message keeps the held evaluate requests, or adds the promise it
    has just allocated at the end, or removes the oldest. *)
Lemma perform_evaluate_promises (c : Call) (w : World) :
  promises w <= promises (final (perform c w))
  /\ (evaluate_promises (this (final (perform c w))) = evaluate_promises (this w)
      \/ (evaluate_promises (this (final (perform c w)))
          = evaluate_promises (this w) ++ [GripPromise (promises w)]
          /\ promises w < promises (final (perform c w)))
      \/ evaluate_promises (this (final (perform c w)))
         = tl (evaluate_promises (this w))).
Proof.
  destruct w as [[n d p ops pf q pe] k].
  destruct c; cbn [perform].
  - unfold interrupt, sendPauseRequest, bind; simpl. destruct p; held_case.
  - unfold resume, resume_like, bind; simpl.
    destruct d; simpl; try held_case. held_doNext. held_case.
  - unfold stepOver, resume_like, bind; simpl.
    destruct d; simpl; try held_case. held_doNext. held_case.
  - unfold stepInto, resume_like, bind; simpl.
    destruct d; simpl; try held_case. held_doNext. held_case.
  - unfold stepOut, resume_like, bind; simpl.
    destruct d; simpl; try held_case. held_doNext. held_case.
  - unfold fetchStackFrames, Promise_reject, newPromise,
      PendingRequests.enqueue, try_catch, bind; simpl.
    destruct d, p; held_case.
  - unfold evaluate, Promise_reject, newPromise, try_catch, bind; simpl.
    destruct d; simpl; try held_case. held_doNext. held_case.
  - unfold operationFinishedOnPausedThread, bind; simpl.
    held_doNext. held_case.
  - destruct response as [from ty why src srcs frs err].
    unfold receiveResponse, type_is, error_is, paused_by, deref,
      PendingRequests.resolveOne, PendingRequests.rejectAll, bind.
    repeat (simpl; try rewrite forEach_tell; first [held_doNext | break_match]);
      simpl; try rewrite forEach_tell; simpl.
    all: held_case.
Qed.

End HeldRequests.

Lemma perform_promises_distinct (c : Call) (w : World) :
  promises_distinct w -> promises_distinct (final (perform c w)).
Proof.
  intros [Hnd Hall].
  destruct (perform_evaluate_promises c w) as (Hle & [He | [[He Hlt] | He]]);
    unfold promises_distinct; rewrite He.
  - split; [exact Hnd|]. intros p Hp.
    destruct (Hall p Hp) as (m & -> & Hm). exists m. split; [reflexivity|lia].
  - split.
    + apply NoDup_app; [exact Hnd | repeat constructor; intros [] |].
      intros x Hx [<-|[]]. destruct (Hall _ Hx) as (m & [= <-] & Hm). lia.
    + intros p Hp. apply in_app_or in Hp. destruct Hp as [Hp|[<-|[]]].
      * destruct (Hall p Hp) as (m & -> & Hm). exists m. split; [reflexivity|lia].
      * exists (promises w). split; [reflexivity|lia].
  - split.
    + destruct (evaluate_promises (this w)); [exact Hnd|].
      inversion Hnd; assumption.
    + intros p Hp. destruct (evaluate_promises (this w)) as [|x l]; [destruct Hp|].
      destruct (Hall p (or_intror Hp)) as (m & -> & Hm).
      exists m. split; [reflexivity|lia].
Qed.

Lemma enter_operation_promises_distinct (w : World) :
  promises_distinct w -> promises_distinct (enter_operation w).
Proof.
  destruct w as [[n d p ops pf q pe] k]. intros [Hnd Hall].
  split; [exact Hnd|]. intros x Hx.
  destruct (Hall x Hx) as (m & -> & Hm).
  exists m. split; [reflexivity|simpl in *; lia].
Qed.

(** In every reachable state the active and the queued evaluate requests have
    pairwise distinct promises, all of them allocated grip promises; so the
    active request is never also in the queue and no request is queued
    twice. *)
Theorem evaluate_requests_distinct (w : World) :
  reachable w ->
  promises_distinct w
  /\ forall req q,
       pendingEvaluateRequest (this w) = Some req ->
       In q (queuedEvaluateRequests (this w)) ->
       q_resolve q <> resolve req.
Proof.
  intros Hr.
  assert (H : promises_distinct w).
  { revert w Hr. apply reachable_keeps.
    - apply perform_promises_distinct.
    - apply enter_operation_promises_distinct.
    - intros n. split; [constructor | intros p []]. }
  split; [exact H|].
  intros req q Hreq Hq Heq. destruct H as [Hnd _].
  unfold evaluate_promises in Hnd. rewrite Hreq in Hnd. simpl in Hnd.
  inversion Hnd as [|? ? Hnotin _]; subst. apply Hnotin.
  rewrite <- Heq. apply in_map, Hq.
Qed.

Lemma evaluate_requests_distinct_witness :
  NoDup (evaluate_promises (this evaluating_thread)).
Proof.
  apply (evaluate_requests_distinct evaluating_thread).
  apply reachable_run, reachable_constructed.
Defined.

Lemma rejecting_branch_unreachable_witness :
  no_running_rejection
    (trace (exec (Do (deliver (clientEvaluated "thread1" "2"))) evaluating_thread))
  = true.
Proof.
  apply (rejecting_branch_unreachable evaluating_thread).
  apply reachable_run, reachable_constructed.
Defined.

(** ** doNext as a whole *)

(** [doNext] never throws and writes only [paused], [queuedEvaluateRequests]
    and [pendingEvaluateRequest]: the name, [desiredState], the operation
    counter, the frame requests and the promise counter are as before.  Of the
    evaluate requests it only moves the oldest queued one into
    [pendingEvaluateRequest]; it neither drops nor duplicates one, and it
    never resolves a promise. *)
Theorem doNext_keeps_requests (w : World) :
  let r := doNext w in
  completion r = Normal tt
  /\ _name (this (final r)) = _name (this w)
  /\ desiredState (this (final r)) = desiredState (this w)
  /\ operationsRunningOnPausedThread (this (final r))
     = operationsRunningOnPausedThread (this w)
  /\ pendingFrameRequests (this (final r)) = pendingFrameRequests (this w)
  /\ promises (final r) = promises w
  /\ evaluate_promises (this (final r)) = evaluate_promises (this w)
  /\ resolutions (trace r) = [].
Proof.
  cbv zeta.
  destruct (doNext_frame w) as (Hc & Hn & Hd & Ho & Hf & Hk).
  repeat split; try assumption.
  - apply doNext_evaluate_promises.
  - apply doNext_resolves_nothing.
Qed.

(** ** The promise of runOnPausedThread *)

(** [runOnPausedThread] never throws.  It counts the operation, pauses the
    thread if it runs, invokes the operation, and settles the promise it
    returns as soon as the operation returns, whether or not the completion
    callback has been called: the promise is resolved with the operation's
    result, or rejected with what the operation threw.  Apart from what the
    operation itself does, the counter stays incremented in both cases. *)
Theorem runOnPausedThread_settles_promise (operation : M unit -> M Value)
    (w : World) :
  let r := runOnPausedThread operation w in
  let promise := ResultPromise (promises w) in
  let r0 := operation operationFinishedOnPausedThread (enter_operation w) in
  completion r = Normal promise
  /\ final r = final r0
  /\ exists pre,
       requests pre
       = (if paused (this w) then [] else [request (_name (this w)) "interrupt"])
       /\ invoked pre = []
       /\ trace r
          = pre ++ trace r0
            ++ [match completion r0 with
                | Normal result => Resolve promise result
                | Throw e => Reject promise (Thrown e)
                end].
Proof.
  destruct w as [[n d p ops pf q pe] k].
  unfold runOnPausedThread, newPromise, try_catch, sendPauseRequest,
    enter_operation, bind; simpl.
  destruct p; unfold set_paused, set_operationsRunningOnPausedThread; simpl;
    match goal with |- context [operation ?f ?w'] =>
      destruct (operation f w') as [w1 t1 [v|e]]
    end; simpl; repeat split.
  1-2: exists [Log debug [Str "Starting operation on paused thread"]];
    repeat split; simpl; rewrite ?app_nil_r; reflexivity.
  all: exists [Log debug [Str "Starting operation on paused thread"];
               Log debug [Str "Sending pause request to thread "; Str n];
               SendRequest (request n "interrupt")];
    repeat split; simpl; rewrite ?app_nil_r; reflexivity.
Qed.

(** ** An interrupt asked for by the user *)

(** [interrupt()] on a thread that runs sends one interrupt request, and the
    'interrupted' message that confirms it is passed on to the listeners as a
    'paused' event: the thread is then paused and wanted paused, and
    everything else is as before. *)
Theorem interrupt_is_announced (w : World) :
  paused (this w) = false ->
  let n := _name (this w) in
  let outcome :=
    run [Do call_interrupt; Do (deliver (paused_message n "interrupted" None))] w in
  requests (snd outcome) = [request n "interrupt"]
  /\ emitted (snd outcome) = [paused_event "interrupted"]
  /\ doNext_entries (snd outcome) = 0
  /\ fst outcome
     = {| this := set_desiredState Paused (set_paused true (this w));
          promises := promises w |}.
Proof.
  destruct w as [[n d p ops pf q pe] k]; simpl. intros ->.
  repeat split; reflexivity.
Qed.

Lemma interrupt_is_announced_witness :
  emitted (snd (run [Do call_interrupt;
                     Do (deliver (paused_message "thread1" "interrupted" None))]
                  running_thread))
  = [paused_event "interrupted"].
Proof.
  apply (interrupt_is_announced running_thread). reflexivity.
Defined.

(** ** resume() and the step methods *)

(** On a paused thread that is wanted paused, with no operation running on it
    and no evaluate request active or queued, [resume()], [stepOver()],
    [stepInto()] and [stepOut()] each send exactly one resume request, with no
    resumeLimit, 'next', 'step' and 'finish' respectively, record the desired
    state and clear [paused].  A second such call is then ignored. *)
Theorem resume_and_steps (c c' : Call) (target : DesiredState) (w : World) :
  (c, target) = (call_resume, Running)
  \/ (c, target) = (call_stepOver, StepOver)
  \/ (c, target) = (call_stepInto, StepInto)
  \/ (c, target) = (call_stepOut, StepOut) ->
  In c' [call_resume; call_stepOver; call_stepInto; call_stepOut] ->
  desiredState (this w) = Paused ->
  paused (this w) = true ->
  (operationsRunningOnPausedThread (this w) <= 0)%Z ->
  pendingEvaluateRequest (this w) = None ->
  queuedEvaluateRequests (this w) = [] ->
  let r := perform c w in
  requests (trace r) = [resume_request (_name (this w)) (limit_of target)]
  /\ final r
     = {| this := set_desiredState target (set_paused false (this w));
          promises := promises w |}
  /\ final (perform c' (final r)) = final r
  /\ requests (trace (perform c' (final r))) = [].
Proof.
  destruct w as [[n d p ops pf q pe] k]; simpl.
  intros Hc Hc' -> -> Hops -> ->.
  destruct Hc as [Hc | [Hc | [Hc | Hc]]]; injection Hc as -> ->;
    cbn [perform];
    unfold resume, stepOver, stepInto, stepOut, resume_like, doNext, bind; simpl;
    (destruct (Z.gtb_spec ops 0); [lia|]); simpl;
    (repeat split; try reflexivity);
    destruct Hc' as [<- | [<- | [<- | [<- | []]]]]; reflexivity.
Qed.

Lemma resume_and_steps_witness :
  requests (trace (perform call_stepOut thread1))
  = [resume_request "thread1" (Some "finish")].
Proof.
  apply (resume_and_steps call_stepOut call_resume StepOut thread1);
    first [ reflexivity
          | right; right; right; reflexivity
          | left; reflexivity
          | vm_compute; discriminate ].
Defined.

(** * Evaluate requests in any session *)

(** ** Serving one at a time *)

Lemma one_at_a_time_send subs :
  forall vals s,
    nth_error subs (List.length vals) = Some s ->
    one_at_a_time (firstn (S (List.length vals)) subs) vals
    = one_at_a_time (firstn (List.length vals) subs) vals ++ [Sent (fst s)].
Proof.
  induction subs as [|[r p] subs IH]; intros vals s Hs.
  - destruct vals; discriminate.
  - destruct vals as [|v vals]; simpl in *.
    + injection Hs as <-. reflexivity.
    + do 2 f_equal. apply IH. exact Hs.
Qed.

Lemma one_at_a_time_fulfil subs :
  forall vals s v,
    nth_error subs (List.length vals) = Some s ->
    one_at_a_time (firstn (S (List.length vals)) subs) (vals ++ [v])
    = one_at_a_time (firstn (S (List.length vals)) subs) vals
      ++ [Fulfilled (snd s) (VGrip v)].
Proof.
  induction subs as [|[r p] subs IH]; intros vals s v Hs.
  - destruct vals; discriminate.
  - destruct vals as [|v0 vals]; simpl in *.
    + injection Hs as <-. destruct subs; reflexivity.
    + do 2 f_equal. apply IH. exact Hs.
Qed.

Lemma skipn_nth_error {A} (l : list A) :
  forall n x rest, skipn n l = x :: rest ->
    nth_error l n = Some x /\ skipn (S n) l = rest /\ n < List.length l.
Proof.
  induction l as [|y l IH]; intros n x rest H.
  - destruct n; discriminate.
  - destruct n; simpl in *.
    + injection H as -> ->. repeat split. lia.
    + destruct (IH n x rest H) as (H1 & H2 & H3). repeat split; auto. lia.
Qed.

Lemma nth_error_skipn {A} (l : list A) :
  forall n x, nth_error l n = Some x -> skipn n l = x :: skipn (S n) l.
Proof.
  induction l as [|y l IH]; intros n x H.
  - destruct n; discriminate.
  - destruct n; simpl in *.
    + injection H as ->. reflexivity.
    + apply IH, H.
Qed.

Lemma serves_frame (w w0 : World) subs evs :
  serves w subs evs ->
  pendingEvaluateRequest (this w0) = pendingEvaluateRequest (this w) ->
  queuedEvaluateRequests (this w0) = queuedEvaluateRequests (this w) ->
  queue_is_served w0 = true ->
  frames_typed w0 = true ->
  serves w0 subs evs.
Proof.
  intros (vals & active & Hle & Hevs & Hpe & Hq & Hall & _ & _) Hpe0 Hq0 Hs0 Hf0.
  exists vals, active. cbv zeta in *. rewrite Hpe0, Hq0. repeat split; assumption.
Qed.

Lemma serves_active_nth (w : World) (subs : list (Request * PromiseId)) (vals : list Grip) :
  forall (active : bool),
    (if active then S (List.length vals) else List.length vals) <= List.length subs ->
    pendingEvaluateRequest (this w)
    = (if active
       then option_map continuations_of (nth_error subs (List.length vals))
       else None) ->
    (active = false /\ pendingEvaluateRequest (this w) = None)
    \/ (active = true /\ exists s, nth_error subs (List.length vals) = Some s
        /\ pendingEvaluateRequest (this w) = Some (continuations_of s)).
Proof.
  intros [|] Hle Hpe; [right|left; split; [reflexivity|exact Hpe]].
  split; [reflexivity|].
  destruct (nth_error subs (List.length vals)) as [s|] eqn:Hn.
  - exists s. split; [reflexivity|exact Hpe].
  - apply nth_error_None in Hn. lia.
Qed.

Lemma serves_enqueue (w w0 : World) subs evs s :
  serves w subs evs ->
  is_evaluate_submission s ->
  pendingEvaluateRequest (this w0) = pendingEvaluateRequest (this w) ->
  queuedEvaluateRequests (this w0)
  = queuedEvaluateRequests (this w) ++ [queued_request s] ->
  queue_is_served w0 = true ->
  frames_typed w0 = true ->
  serves w0 (subs ++ [s]) evs.
Proof.
  intros (vals & active & Hle & Hevs & Hpe & Hq & Hall & _ & _) Hs Hpe0 Hq0 Hs0 Hf0.
  exists vals, active. cbv zeta in *.
  set (sent := if active then S (List.length vals) else List.length vals) in *.
  assert (Hz : sent - List.length subs = 0) by lia.
  repeat split.
  - rewrite length_app. lia.
  - rewrite firstn_app, Hz. simpl. rewrite app_nil_r. exact Hevs.
  - rewrite Hpe0, Hpe. destruct active; [|reflexivity].
    rewrite nth_error_app1; [reflexivity|]. unfold sent in Hle. lia.
  - rewrite Hq0, Hq, skipn_app, Hz, map_app. reflexivity.
  - apply Forall_app. split; [exact Hall|]. constructor; [exact Hs|constructor].
  - exact Hs0.
  - exact Hf0.
Qed.

Lemma serves_fulfil (w w0 : World) subs evs req v :
  serves w subs evs ->
  pendingEvaluateRequest (this w) = Some req ->
  pendingEvaluateRequest (this w0) = None ->
  queuedEvaluateRequests (this w0) = queuedEvaluateRequests (this w) ->
  queue_is_served w0 = true ->
  frames_typed w0 = true ->
  (exists p, resolve req = GripPromise p)
  /\ serves w0 subs (evs ++ [Fulfilled (resolve req) (VGrip v)]).
Proof.
  intros (vals & active & Hle & Hevs & Hpe & Hq & Hall & _ & _) Hreq Hpe0 Hq0 Hs0 Hf0.
  cbv zeta in *.
  destruct (serves_active_nth w subs vals active Hle Hpe)
    as [[-> Hnone] | [-> (s & Hnth & Hsome)]]; [congruence|].
  assert (Hs : is_evaluate_submission s).
  { rewrite Forall_forall in Hall. apply Hall. eapply nth_error_In, Hnth. }
  assert (Hr : req = continuations_of s) by congruence. subst req.
  split; [exact (proj2 Hs)|].
  exists (vals ++ [v]), false. cbv zeta.
  assert (Hlen : List.length (vals ++ [v]) = S (List.length vals))
    by (rewrite length_app; simpl; lia).
  rewrite Hlen. repeat split; try assumption.
  - rewrite Hevs. symmetry. apply one_at_a_time_fulfil. exact Hnth.
  - rewrite Hq0. exact Hq.
Qed.

Lemma doNext_service (w : World) :
  queue_is_served w = true ->
  (pendingEvaluateRequest (this (final (doNext w))) = pendingEvaluateRequest (this w)
   /\ queuedEvaluateRequests (this (final (doNext w))) = queuedEvaluateRequests (this w)
   /\ evaluate_events (trace (doNext w)) = [])
  \/ (exists h rest,
        pendingEvaluateRequest (this w) = None
        /\ queuedEvaluateRequests (this w) = h :: rest
        /\ pendingEvaluateRequest (this (final (doNext w)))
           = Some {| resolve := q_resolve h; reject := q_reject h |}
        /\ queuedEvaluateRequests (this (final (doNext w))) = rest
        /\ evaluate_events (trace (doNext w))
           = (if type (send h) =? "clientEvaluate" then [Sent (send h)] else [])).
Proof.
  destruct w as [[n d p ops pf q pe] k].
  unfold queue_is_served, doNext, bind; simpl.
  destruct (ops >? 0)%Z, p, pe, q as [|h rest], d; simpl; intros H;
    try discriminate;
    try (left; repeat split; reflexivity).
  all: right; exists h, rest; repeat split; simpl; rewrite app_nil_r; reflexivity.
Qed.

Lemma service_events_app (t1 t2 : list Effect) :
  service_events (t1 ++ t2) = service_events t1 ++ service_events t2.
Proof.
  unfold service_events. rewrite evaluate_events_app. apply filter_app.
Qed.

Lemma service_events_cons (a : Effect) (t : list Effect) :
  service_events (a :: t) = service_events [a] ++ service_events t.
Proof. apply (service_events_app [a] t). Qed.

Lemma doNext_frames_typed (w : World) :
  frames_typed (final (doNext w)) = frames_typed w.
Proof.
  unfold frames_typed. destruct (doNext_frame w) as (_ & _ & _ & _ & -> & _).
  reflexivity.
Qed.

Lemma serves_doNext (w : World) subs evs :
  serves w subs evs ->
  serves (final (doNext w)) subs (evs ++ service_events (trace (doNext w))).
Proof.
  intros Hserves.
  assert (Hs : queue_is_served w = true /\ frames_typed w = true)
    by (destruct Hserves as (? & ? & ? & ? & ? & ? & ? & H); exact H).
  destruct Hs as [Hs Hf].
  destruct (doNext_queue_is_served w Hs) as [Hs' _].
  assert (Hf' := doNext_frames_typed w). rewrite Hf in Hf'.
  destruct (doNext_service w Hs) as
    [(Hpe' & Hq' & Hev) | (h & rest & Hpe & Hq & Hpe' & Hq' & Hev)];
    unfold service_events; rewrite Hev.
  - simpl. rewrite app_nil_r.
    apply (serves_frame w); assumption.
  - destruct Hserves as (vals & active & Hle & Hevs & Hpe0 & Hq0 & Hall & _ & _).
    cbv zeta in *.
    destruct (serves_active_nth w subs vals active Hle Hpe0)
      as [[-> _] | [-> (s & _ & Hsome)]]; [|congruence].
    rewrite Hq in Hq0.
    destruct (skipn (List.length vals) subs) as [|s ss] eqn:Hskip; [discriminate|].
    simpl in Hq0. injection Hq0 as -> ->.
    destruct (skipn_nth_error subs _ _ _ Hskip) as (Hnth & Hskip' & Hlt).
    assert (Hsub : is_evaluate_submission s).
    { rewrite Forall_forall in Hall. apply Hall. eapply nth_error_In, Hnth. }
    destruct Hsub as [Hty _]. simpl. rewrite Hty. simpl.
    exists vals, true. cbv zeta. repeat split; try assumption; try lia.
    + rewrite Hevs. symmetry. apply one_at_a_time_send. exact Hnth.
    + rewrite Hpe', Hnth. reflexivity.
    + rewrite Hq', Hskip'. reflexivity.
Qed.

Lemma serves_invariants (w : World) subs evs :
  serves w subs evs -> queue_is_served w = true /\ frames_typed w = true.
Proof. intros (? & ? & ? & ? & ? & ? & ? & H). exact H. Qed.

Lemma service_events_of_frame_rejects (pf : list PendingRequest) (err : string) :
  forallb (fun req =>
             match resolve req, reject req with
             | FramesPromise _, FramesPromise _ => true
             | _, _ => false
             end) pf = true ->
  service_events (map (fun req => Reject (reject req) (Msg err)) pf) = [].
Proof.
  induction pf as [|req pf IH]; simpl; [reflexivity|].
  intros H. apply andb_prop in H. destruct H as [Hreq Hpf].
  rewrite service_events_cons, (IH Hpf), app_nil_r.
  destruct (resolve req), (reject req); try discriminate; reflexivity.
Qed.

Section Service.

#[local] Arguments doNext : simpl never.
#[local] Opaque doNext.
#[local] Arguments serves : simpl never.
#[local] Arguments queue_is_served : simpl never.
#[local] Arguments frames_typed : simpl never.
#[local] Arguments service_events : simpl never.

Ltac served_side :=
  unfold queue_is_served in *; simpl in *;
  repeat match goal with
         | b : bool |- _ => destruct b
         | o : option PendingRequest |- _ => destruct o
         end;
  try match goal with
      | l : list QueuedRequest |- _ => destruct l
      end;
  simpl in *; try discriminate; auto.

Ltac typed_side :=
  unfold frames_typed in *; simpl in *;
  rewrite ?forallb_app; simpl;
  repeat match goal with
         | H : _ && _ = true |- _ => apply andb_prop in H; destruct H
         end;
  repeat match goal with
         | H : ?x = true |- context [?x] => rewrite H
         end;
  auto.

Ltac split_service :=
  repeat match goal with
         | |- context [service_events (?a :: ?b :: ?t)] =>
             rewrite (service_events_cons a (b :: t))
         | |- context [service_events (?a :: ?t1 ++ ?t2)] =>
             rewrite (service_events_cons a (t1 ++ t2))
         | |- context [service_events (?t1 ++ ?t2)] =>
             rewrite (service_events_app t1 t2)
         end.

Ltac silent_events :=
  repeat match goal with
         | |- context [service_events [?a]] =>
             let r := eval cbv in (service_events [a]) in
             change (service_events [a]) with r
         | |- context [service_events []] =>
             change (service_events []) with (@nil EvaluateEvent)
         end;
  cbn [app]; rewrite ?app_nil_r.

Ltac keep_serving H :=
  first
    [ eapply serves_frame;
      [exact H | reflexivity | reflexivity | solve [served_side] | solve [typed_side]]
    | apply serves_doNext;
      eapply serves_frame;
      [exact H | reflexivity | reflexivity | solve [served_side] | solve [typed_side]] ].

Ltac fulfil_then_doNext H :=
  match goal with
  | |- serves (final (doNext ?w1)) ?subs
         (?evs ++ _ ++ _ ++ service_events [Resolve (resolve ?req) (VGrip ?v)] ++ _) =>
      let gp := fresh "gp" in
      let Hgp := fresh "Hgp" in
      let Hserve := fresh "Hserve" in
      destruct (serves_fulfil _ w1 subs evs req v H eq_refl eq_refl eq_refl)
        as [[gp Hgp] Hserve];
      [ solve [served_side] | solve [typed_side] | ];
      rewrite Hgp in *; silent_events;
      match goal with
      | |- serves _ _ (?e ++ ?f :: ?t) =>
          change (e ++ f :: t) with (e ++ [f] ++ t); rewrite (app_assoc e [f] t)
      end;
      apply serves_doNext; exact Hserve
  end.

Ltac frames_resolved Hf :=
  let Hh := fresh "Hh" in
  let Ht := fresh "Ht" in
  unfold frames_typed in Hf; simpl in Hf;
  apply andb_prop in Hf; destruct Hf as [Hh Ht];
  match goal with
  | |- context [Resolve (resolve ?req) _] =>
      destruct (resolve req), (reject req); try discriminate
  end.

Lemma receiveResponse_serves (response : Response) (w : World) subs evs :
  serves w subs evs ->
  serves (final (receiveResponse response w)) subs
    (evs ++ service_events (trace (receiveResponse response w))).
Proof.
  intros H. destruct (serves_invariants w subs evs H) as [Hs Hf].
  destruct w as [[n d p ops pf q pe] k].
  destruct response as [from ty why src srcs frs err].
  unfold receiveResponse, type_is, error_is, paused_by, deref,
    PendingRequests.resolveOne, PendingRequests.rejectAll, bind.
  repeat (simpl; try rewrite forEach_tell;
          first [ match goal with
                  | |- context [match doNext ?w with _ => _ end] =>
                      rewrite (doNext_eta w)
                  end
                | break_match ]);
    simpl; try rewrite forEach_tell; simpl.
  all: split_service.
  all: try (silent_events; keep_serving H).
  - fulfil_then_doNext H.
  - fulfil_then_doNext H.
  - frames_resolved Hf. silent_events. keep_serving H.
  - rewrite service_events_of_frame_rejects by exact Hf.
    silent_events. keep_serving H.
  - frames_resolved Hf. silent_events. keep_serving H.
Qed.

Ltac prepare :=
  simpl; rewrite ?app_nil_r;
  repeat match goal with
         | |- context [match doNext ?w with _ => _ end] =>
             rewrite (doNext_eta w); simpl
         end;
  split_service; silent_events.

Lemma perform_serves (c : Call) (w : World) subs evs :
  serves w subs evs ->
  serves (final (perform c w)) (subs ++ submitted_by c w)
    (evs ++ service_events (trace (perform c w))).
Proof.
  intros H. destruct (serves_invariants w subs evs H) as [Hs Hf].
  destruct c; cbn [perform submitted_by].
  9: { rewrite app_nil_r. apply receiveResponse_serves, H. }
  all: destruct w as [[n d p ops pf q pe] k].
  - unfold interrupt, sendPauseRequest, bind. destruct p; prepare; keep_serving H.
  - unfold resume, resume_like, bind. destruct d; prepare; keep_serving H.
  - unfold stepOver, resume_like, bind. destruct d; prepare; keep_serving H.
  - unfold stepInto, resume_like, bind. destruct d; prepare; keep_serving H.
  - unfold stepOut, resume_like, bind. destruct d; prepare; keep_serving H.
  - unfold fetchStackFrames, Promise_reject, newPromise,
      PendingRequests.enqueue, try_catch, bind.
    destruct d, p; prepare; keep_serving H.
  - unfold evaluate, Promise_reject, newPromise, try_catch, bind.
    destruct d; prepare; try keep_serving H.
    apply serves_doNext.
    eapply serves_enqueue;
      [ exact H
      | split; [reflexivity | eexists; reflexivity]
      | reflexivity | reflexivity
      | solve [served_side] | solve [typed_side] ].
  - unfold operationFinishedOnPausedThread, bind. prepare. keep_serving H.
Qed.

End Service.

Lemma submitted_RunOnPausedThread (operation : list Action) (w : World) :
  submitted (RunOnPausedThread operation) w
  = submitted_all operation (enter_operation w).
Proof. reflexivity. Qed.

Lemma enter_operation_serves (w : World) subs evs :
  serves w subs evs -> serves (enter_operation w) subs evs.
Proof.
  intros H. destruct (serves_invariants w subs evs H) as [Hs Hf].
  apply (serves_frame w); try exact H.
  - destruct w as [[] ?]; reflexivity.
  - destruct w as [[] ?]; reflexivity.
  - destruct w as [[] ?]; reflexivity.
  - destruct w as [[] ?]; exact Hf.
Qed.

Lemma exec_all_serves (l : list Action) :
  Forall keeps_serving l ->
  forall w subs evs,
    serves w subs evs ->
    serves (final (exec_all l w)) (subs ++ submitted_all l w)
      (evs ++ service_events (trace (exec_all l w))).
Proof.
  induction 1 as [|a l Ha _ IH]; intros w subs evs Hw.
  - simpl. rewrite !app_nil_r. exact Hw.
  - cbn [exec_all submitted_all]. unfold bind.
    specialize (Ha w subs evs Hw).
    destruct (exec a w) as [w1 t1 [[]|e]]; cbn [final trace completion] in *.
    + specialize (IH w1 _ _ Ha).
      destruct (exec_all l w1) as [w2 t2 c2]; cbn [final trace completion] in *.
      rewrite service_events_app, !app_assoc. exact IH.
    + rewrite app_nil_r. exact Ha.
Qed.

Lemma exec_serves (a : Action) : keeps_serving a.
Proof.
  induction a as [c|operation IH] using Action_ind; intros w subs evs Hw.
  - apply perform_serves, Hw.
  - rewrite submitted_RunOnPausedThread, exec_RunOnPausedThread.
    destruct (bind_ret_final_trace
                (runOnPausedThread (fun _ => exec_all operation ;; ret VUndefined))
                tt w) as [-> ->].
    rewrite runOnPausedThread_final, runOnPausedThread_trace. cbv zeta.
    destruct (bind_ret_final_trace (exec_all operation) VUndefined
                (enter_operation w)) as [-> ->].
    pose proof (exec_all_serves operation IH _ _ _ (enter_operation_serves _ _ _ Hw))
      as Hop.
    rewrite !service_events_app.
    match goal with
    | |- serves _ _ (_ ++ service_events ?pre ++ _ ++ service_events [?settle]) =>
        replace (service_events pre) with (@nil EvaluateEvent)
          by (destruct (paused (this w)); reflexivity);
        replace (service_events [settle]) with (@nil EvaluateEvent)
          by (destruct (completion _); reflexivity)
    end.
    cbn [app]. rewrite app_nil_r. exact Hop.
Qed.

Lemma run_serves (l : list Action) :
  forall w subs evs,
    serves w subs evs ->
    serves (fst (run l w)) (subs ++ submitted_in_run l w)
      (evs ++ service_events (snd (run l w))).
Proof.
  induction l as [|a l IH]; intros w subs evs Hw.
  - simpl. rewrite !app_nil_r. exact Hw.
  - rewrite run_cons. cbn [fst snd submitted_in_run].
    rewrite service_events_app, !app_assoc.
    apply IH, exec_serves, Hw.
Qed.

Lemma one_at_a_time_counts subs :
  forall vals,
    List.length subs = List.length vals \/ List.length subs = S (List.length vals) ->
    fulfilled_grips (one_at_a_time subs vals) = vals
    /\ sent_requests (one_at_a_time subs vals) = map fst subs.
Proof.
  induction subs as [|[r p] subs IH]; intros vals Hlen.
  - destruct vals; simpl in *; [split; reflexivity | lia].
  - destruct vals as [|v vals]; simpl in *.
    + destruct subs; simpl in *; [split; reflexivity | lia].
    + destruct (IH vals) as [H1 H2]; [lia|]. rewrite H1, H2. split; reflexivity.
Qed.

Lemma constructor_serves (name : string) :
  serves (final (constructor name)) [] [].
Proof.
  exists [], false. cbv zeta.
  repeat split; try reflexivity; try (simpl; lia); constructor.
Qed.


(** An evaluation, an [interrupt()] while it runs, and a second evaluation: the
    interrupt makes the thread count as paused while the first request is
    still active, and [doNext] then resumes the thread instead of sending the
    second request. *)
Lemma evaluate_interrupt_evaluate :
  let tr := snd (run [Do (call_evaluate "1+1" "frame1"); Do call_interrupt;
                      Do (call_evaluate "2+2" "frame1")] thread1) in
  requests tr
  = [clientEvaluate_request "thread1" "1+1" "frame1";
     request "thread1" "interrupt";
     request "thread1" "resume"]
  /\ service_events tr = [Sent (clientEvaluate_request "thread1" "1+1" "frame1")].
Proof. split; reflexivity. Qed.
